(** * jsonformatter: the tree builder, the layout flattener and the path matcher

    A shallow embedding of [src/utils/jsonToTree.ts] and
    [src/utils/searchUtils.ts], with the properties the specification
    states about them.

    Conventions of the embedding:
    - a JavaScript string is the list of its UTF-16 code units ([list N]);
      [js "..."] writes one from an ASCII literal;
    - a decoded JSON object is the list of its entries in [Object.keys]
      order; a JavaScript object has no two equal keys, which [json_wf]
      records, and under it [data[key]] is the entry's value ([obj_get_entry]);
    - a JSON number is kept as the text [String(n)] gives for it, the only
      thing the code does with a number;
    - layout coordinates are integers ([Z]), where the code has doubles: the
      only call of the flattener passes the default origin, (400, 50), and
      the one division of the code, [spacing / 2], is exact ([spacing_even]).
      The arithmetic of [Z] is that of the code as long as the numbers stay
      within [Number.MAX_SAFE_INTEGER] in magnitude ([safeInteger]); the
      properties of the positions carry that bound on the origin as a
      hypothesis and show that every number computed stays within it. The
      properties of ids, contents and counts do not depend on positions;
    - [levelYPositions], a [Record<number, number>], is a [gmap nat Z];
    - the [while] loop over the work queue is a function defined by
      well-founded recursion on the number of tree nodes still reachable from
      the queue;
    - the value preview and the styles of [components/JsonNode.tsx] and the
      handlers of [App.tsx] are embedded as well, the handlers as functions
      on the state of the component, with [JSON.parse] as a parameter. *)

From Stdlib Require Import String Ascii ZArith Lia Permutation.
From Stdlib Require Import Decimal DecimalString DecimalNat.
From Equations Require Import Equations.
From stdpp Require Import base numbers option list gmap.

#[local] Set Warnings "-register-all".
#[local] Open Scope Z_scope.

(** ** JavaScript strings *)

Abbreviation jsstring := (list N) (only parsing).

Definition js (s : string) : jsstring :=
  map N_of_ascii (list_ascii_of_string s).

Definition ch_dollar : N := 36.
Definition ch_dot : N := 46.
Definition ch_lbracket : N := 91.
Definition ch_rbracket : N := 93.

(** [WhiteSpace] and [LineTerminator] of ECMAScript, what [trim] strips. *)
Definition isWhiteSpace (c : N) : bool :=
  ((9 <=? c) && (c <=? 13) || (c =? 32) || (c =? 160) || (c =? 5760)
   || (8192 <=? c) && (c <=? 8202) || (c =? 8232) || (c =? 8233)
   || (c =? 8239) || (c =? 8287) || (c =? 12288) || (c =? 65279))%N.

Fixpoint trimStart (s : jsstring) : jsstring :=
  match s with
  | c :: s' => if isWhiteSpace c then trimStart s' else s
  | [] => []
  end.

Definition trimEnd (s : jsstring) : jsstring :=
  reverse (trimStart (reverse s)).

Definition trim (s : jsstring) : jsstring := trimEnd (trimStart s).

(** A string in a condition: the empty string is falsy. *)
Definition truthy (s : jsstring) : bool :=
  match s with [] => false | _ => true end.

Fixpoint startsWith (s p : jsstring) : bool :=
  match p, s with
  | [], _ => true
  | a :: p', b :: s' => (a =? b)%N && startsWith s' p'
  | _ :: _, [] => false
  end.

(** [s.includes(t)]: [t] occurs in [s] at some position. *)
Fixpoint includes (s t : jsstring) : bool :=
  startsWith s t ||
  match s with
  | [] => false
  | _ :: s' => includes s' t
  end.

(** [s.replace(pat, rep)] with a string pattern: the first occurrence only.
    With an empty pattern the code is not used. *)
Fixpoint replace (s pat rep : jsstring) : jsstring :=
  if startsWith s pat then rep ++ drop (length pat) s
  else match s with
       | [] => []
       | c :: s' => c :: replace s' pat rep
       end.

(** [s.split(sep)] for a separator that is one code unit out of a class:
    ['.'] in the labels, [/[\.\[\]]/] in the depth of the flattener. *)
Fixpoint split (sep : N → bool) (s : jsstring) : list jsstring :=
  match s with
  | [] => [[]]
  | c :: s' =>
      if sep c then [] :: split sep s'
      else match split sep s' with
           | seg :: segs => (c :: seg) :: segs
           | [] => [[c]]
           end
  end.

(** [arr.pop()] as an expression: the last element, [undefined] (here the
    empty string, falsy as well) on an empty array. *)
Definition pop (segs : list jsstring) : jsstring := default [] (last segs).

(** [`${n}`] for an array index or length. *)
Definition numberToString (n : nat) : jsstring :=
  js (NilEmpty.string_of_uint (Nat.to_uint n)).

(** ** JSON values and tree nodes *)

Inductive json : Type :=
| JNull
| JUndefined
| JBool (b : bool)
| JNumber (text : jsstring)
| JString (s : jsstring)
| JArray (items : list json)
| JObject (entries : list (jsstring * json)).

Inductive JsonNodeType := object | array | primitive.

#[global] Instance JsonNodeType_eq_dec : EqDecision JsonNodeType.
Proof. solve_decision. Defined.

Inductive TreeNode : Type := mkTreeNode {
  id : jsstring;
  path : jsstring;
  label : jsstring;
  value : json;
  type : JsonNodeType;
  children : list TreeNode
}.

(** [String(data)] on the values that reach the primitive branch: booleans,
    numbers and strings. The builder calls it on no other value. *)
Definition String_of (data : json) : jsstring :=
  match data with
  | JBool true => js "true"
  | JBool false => js "false"
  | JNumber text => text
  | JString s => s
  | _ => []
  end.

Definition is_dot (c : N) : bool := (c =? ch_dot)%N.

(** [parentPath.split('.').pop() || parentPath] *)
Definition lastSegment (parentPath : jsstring) : jsstring :=
  let seg := pop (split is_dot parentPath) in
  if truthy seg then seg else parentPath.

Definition isRoot (parentPath : jsstring) : bool :=
  bool_decide (parentPath = js "$").

Fixpoint jsonToTree (data : json) (parentPath : jsstring) : list TreeNode :=
  match data with
  | JNull | JUndefined =>
      [ {| id := parentPath;
           path := parentPath;
           label := (if isRoot parentPath then js "root"
                     else lastSegment parentPath) ++ js ": null";
           value := JNull;
           type := primitive;
           children := [] |} ]
  | JBool _ | JNumber _ | JString _ =>
      let label :=
        if isRoot parentPath then js "root: " ++ String_of data
        else lastSegment parentPath ++ js ": " ++ String_of data in
      [ {| id := parentPath;
           path := parentPath;
           label := label;
           value := data;
           type := primitive;
           children := [] |} ]
  | JArray items =>
      let children :=
        (fix forEach (l : list json) (index : nat) : list TreeNode :=
           match l with
           | [] => []
           | item :: rest =>
               let itemPath :=
                 parentPath ++ js "[" ++ numberToString index ++ js "]" in
               jsonToTree item itemPath ++ forEach rest (S index)
           end) items 0%nat in
      [ {| id := parentPath;
           path := parentPath;
           label := (if isRoot parentPath then js "root: [Array]"
                     else lastSegment parentPath ++ js ": [Array("
                          ++ numberToString (length items) ++ js ")]");
           value := data;
           type := array;
           children := children |} ]
  | JObject entries =>
      let children :=
        (fix forEach (l : list (jsstring * json)) : list TreeNode :=
           match l with
           | [] => []
           | (key, v) :: rest =>
               let childPath :=
                 if isRoot parentPath then js "$." ++ key
                 else parentPath ++ js "." ++ key in
               jsonToTree v childPath ++ forEach rest
           end) entries in
      [ {| id := parentPath;
           path := parentPath;
           label := (if isRoot parentPath then js "root: {Object}"
                     else lastSegment parentPath ++ js ": {Object}");
           value := data;
           type := object;
           children := children |} ]
  end.

(** ** The layout flattener *)

(** A React Flow node and its [data]. The node's [type] and [style] are left
    out: constant but for two colours chosen by the node type, and read by
    nothing here. [data.path] is optional, as the matcher's
    [node.data.path || ''] allows. *)
Module NodeData.
Record t := mk {
  label : jsstring;
  path : option jsstring;
  value : json;
  nodeType : JsonNodeType
}.
End NodeData.

Module Position.
Record t := mk {
  x : Z;
  y : Z
}.
End Position.

Module Node.
Record t := mk {
  id : jsstring;
  position : Position.t;
  data : NodeData.t
}.
End Node.

Module Edge.
Record t := mk {
  id : jsstring;
  source : jsstring;
  target : jsstring
}.
End Edge.

Module QueueItem.
Record t := mk {
  treeNode : TreeNode;
  parentNode : option Node.t;
  x : Z;
  y : Z
}.
End QueueItem.

Fixpoint treeSize (t : TreeNode) : nat :=
  S ((fix sum (l : list TreeNode) : nat :=
        match l with
        | [] => 0%nat
        | c :: l' => (treeSize c + sum l')%nat
        end) (children t)).

Definition forestSize (l : list TreeNode) : nat := sum_list (map treeSize l).

Definition queueSize (queue : list QueueItem.t) : nat :=
  forestSize (map QueueItem.treeNode queue).

Definition is_delim (c : N) : bool :=
  ((c =? ch_dot) || (c =? ch_lbracket) || (c =? ch_rbracket))%N.

(** [treeNode.path.split(/[\.\[\]]/).length - 1] *)
Definition levelOf (treeNode : TreeNode) : nat :=
  (length (split is_delim (path treeNode)) - 1)%nat.

Definition flowNodeOf (item : QueueItem.t) : Node.t :=
  let treeNode := QueueItem.treeNode item in
  {| Node.id := id treeNode;
     Node.position := {| Position.x := QueueItem.x item;
                         Position.y := QueueItem.y item |};
     Node.data := {| NodeData.label := label treeNode;
                     NodeData.path := Some (path treeNode);
                     NodeData.value := value treeNode;
                     NodeData.nodeType := type treeNode |} |}.

(** The edge pushed when the dequeued item has a parent. *)
Definition edgeOf (item : QueueItem.t) : list Edge.t :=
  match QueueItem.parentNode item with
  | Some parentNode =>
      [ {| Edge.id := Node.id parentNode ++ js "-" ++ id (QueueItem.treeNode item);
           Edge.source := Node.id parentNode;
           Edge.target := id (QueueItem.treeNode item) |} ]
  | None => []
  end.

(** [levelYPositions[level + 1] || y + 320]: a missing entry and a stored 0
    are both falsy. The sum is that of the code when [y] and [y + 320] are
    safe integers. *)
Definition childYOf (levelYPositions : gmap nat Z) (level : nat) (y : Z) : Z :=
  match levelYPositions !! (level + 1)%nat with
  | Some stored => if stored =? 0 then y + 320 else stored
  | None => y + 320
  end.

Definition horizontalSpacing : Z := 320.

Definition spacingOf (childCount : nat) : Z :=
  Z.max 360 (Z.of_nat childCount * horizontalSpacing).

(** The items one dequeued node puts on the queue. [spacing / 2] is exact,
    [spacing] being even; the sums and the product are those of the code
    when the values are safe integers. *)
Definition enqueued (levelYPositions : gmap nat Z) (item : QueueItem.t)
  : list QueueItem.t :=
  let treeNode := QueueItem.treeNode item in
  let childCount := length (children treeNode) in
  let childY := childYOf levelYPositions (levelOf treeNode) (QueueItem.y item) in
  let startChildX := QueueItem.x item - spacingOf childCount / 2 + 160 in
  imap (fun index child =>
          {| QueueItem.treeNode := child;
             QueueItem.parentNode := Some (flowNodeOf item);
             QueueItem.x := startChildX + Z.of_nat index * horizontalSpacing;
             QueueItem.y := childY |})
       (children treeNode).

(** [levelYPositions] after a node is processed: written only when the node
    has children. [childY + 280] is the sum of the code when it and [childY]
    are safe integers. *)
Definition levelsAfter (levelYPositions : gmap nat Z) (item : QueueItem.t)
  : gmap nat Z :=
  let treeNode := QueueItem.treeNode item in
  match children treeNode with
  | [] => levelYPositions
  | _ :: _ =>
      let level := levelOf treeNode in
      <[(level + 1)%nat :=
          childYOf levelYPositions level (QueueItem.y item) + 280]>
        levelYPositions
  end.

Lemma forestSize_app (l1 l2 : list TreeNode) :
  forestSize (l1 ++ l2) = (forestSize l1 + forestSize l2)%nat.
Proof. unfold forestSize. induction l1 as [|t l1 IH]; simpl; lia. Qed.

Lemma treeSize_children (t : TreeNode) :
  treeSize t = S (forestSize (children t)).
Proof.
  destruct t as [i p l v ty cs]. simpl. f_equal.
  unfold forestSize. induction cs as [|c cs IH]; simpl; lia.
Qed.

Lemma enqueued_treeNodes (m : gmap nat Z) (item : QueueItem.t) :
  map QueueItem.treeNode (enqueued m item) = children (QueueItem.treeNode item).
Proof.
  unfold enqueued.
  generalize (QueueItem.x item -
                spacingOf (length (children (QueueItem.treeNode item))) / 2 + 160).
  intros x0. generalize (children (QueueItem.treeNode item)) as cs.
  intros cs. revert x0.
  change map with (@fmap list _) in *.
  intros x0. rewrite fmap_imap. simpl.
  clear. induction cs as [|c cs IH] using rev_ind; [done|].
  rewrite imap_app. simpl. by rewrite IH.
Qed.

Lemma queueSize_step (m : gmap nat Z) (item : QueueItem.t) (queue : list QueueItem.t) :
  (queueSize (queue ++ enqueued m item) < queueSize (item :: queue))%nat.
Proof.
  unfold queueSize. rewrite map_app, forestSize_app, enqueued_treeNodes.
  simpl. unfold forestSize at 3. simpl.
  rewrite (treeSize_children (QueueItem.treeNode item)).
  fold (forestSize (map QueueItem.treeNode queue)). lia.
Qed.

(** The body of [while (queue.length > 0)], with [nodes] and [edges] as the
    arrays pushed to. *)
Equations? flowLoop (queue : list QueueItem.t) (levelYPositions : gmap nat Z)
  (nodes : list Node.t) (edges : list Edge.t) : list Node.t * list Edge.t
  by wf (queueSize queue) lt :=
  flowLoop [] _ nodes edges := (nodes, edges);
  flowLoop (item :: queue) levelYPositions nodes edges :=
    flowLoop (queue ++ enqueued levelYPositions item)
             (levelsAfter levelYPositions item)
             (nodes ++ [flowNodeOf item])
             (edges ++ edgeOf item).
Proof. apply queueSize_step. Qed.

Definition treeToFlow (treeNodes : list TreeNode) (startX startY : Z)
  : list Node.t * list Edge.t :=
  match treeNodes with
  | [] => ([], [])
  | root :: _ =>
      flowLoop [ {| QueueItem.treeNode := root;
                    QueueItem.parentNode := None;
                    QueueItem.x := startX;
                    QueueItem.y := startY |} ]
               {[ 0%nat := startY ]} [] []
  end.

Definition sample : json :=
  JObject [ (js "a", JNumber (js "1"));
            (js "b", JArray [JNumber (js "2"); JNumber (js "3")]) ].

(** ** The path matcher *)

Definition nodePathOf (node : Node.t) : jsstring :=
  default [] (NodeData.path (Node.data node)).

(** [searchPath.trim()], then [$.] in front unless it starts with [$]. *)
Definition searchPatternOf (searchPath : jsstring) : jsstring :=
  let normalizedSearch := trim searchPath in
  if startsWith normalizedSearch (js "$") then normalizedSearch
  else js "$." ++ normalizedSearch.

(** The callback of [nodes.forEach], on the array it pushes to. *)
Definition searchVisit (searchPattern : jsstring)
  (matchingNodeIds : list jsstring) (node : Node.t) : list jsstring :=
  let nodePath := nodePathOf node in
  if bool_decide (nodePath = searchPattern) then
    matchingNodeIds ++ [Node.id node]
  else if includes nodePath (replace searchPattern (js "$.") [])
          || bool_decide (nodePath = searchPattern)
          || includes searchPattern nodePath then
    matchingNodeIds ++ [Node.id node]
  else matchingNodeIds.

(** Whether the callback pushes the node: the first test or, failing it, the
    second. *)
Definition searchSelects (searchPattern : jsstring) (node : Node.t) : bool :=
  let nodePath := nodePathOf node in
  bool_decide (nodePath = searchPattern)
  || includes nodePath (replace searchPattern (js "$.") [])
  || includes searchPattern nodePath.

Definition searchNodes (nodes : list Node.t) (searchPath : jsstring)
  : list jsstring :=
  if negb (truthy (trim searchPath)) then []
  else foldl (searchVisit (searchPatternOf searchPath)) [] nodes.

(** [/^(\$?)(\.[a-zA-Z_][a-zA-Z0-9_]*|\[[0-9]+\])*$/] as the automaton that
    reads it: no state has two moves on one code unit, so it accepts exactly
    the strings of the expression. *)
Inductive PatternState :=
| AtStart       (* nothing read *)
| AtSegmentEnd  (* after [$], or after a closed [[n]] *)
| AfterDot      (* after [.], an identifier must start *)
| InIdentifier
| AfterBracket  (* after [[], a digit must follow *)
| InDigits.

Definition isDigit (c : N) : bool := ((48 <=? c) && (c <=? 57))%N.

Definition isIdentStart (c : N) : bool :=
  ((97 <=? c) && (c <=? 122) || (65 <=? c) && (c <=? 90) || (c =? 95))%N.

Definition isIdentChar (c : N) : bool := isIdentStart c || isDigit c.

Definition patternStep (st : PatternState) (c : N) : option PatternState :=
  let segment :=
    if (c =? ch_dot)%N then Some AfterDot
    else if (c =? ch_lbracket)%N then Some AfterBracket
    else None in
  match st with
  | AtStart => if (c =? ch_dollar)%N then Some AtSegmentEnd else segment
  | AtSegmentEnd => segment
  | AfterDot => if isIdentStart c then Some InIdentifier else None
  | InIdentifier => if isIdentChar c then Some InIdentifier else segment
  | AfterBracket => if isDigit c then Some InDigits else None
  | InDigits =>
      if isDigit c then Some InDigits
      else if (c =? ch_rbracket)%N then Some AtSegmentEnd
      else None
  end.

Definition patternAccepts (st : PatternState) : bool :=
  match st with
  | AtStart | AtSegmentEnd | InIdentifier => true
  | AfterDot | AfterBracket | InDigits => false
  end.

Fixpoint patternRun (st : PatternState) (s : jsstring) : bool :=
  match s with
  | [] => patternAccepts st
  | c :: s' =>
      match patternStep st c with
      | Some st' => patternRun st' s'
      | None => false
      end
  end.

(** [pathPattern.test(path)] *)
Definition pathPattern_test (path : jsstring) : bool := patternRun AtStart path.

Definition isValidJsonPath (path : jsstring) : bool :=
  if negb (truthy (trim path)) then false
  else pathPattern_test path || negb (bool_decide (trim path = [])).

(** ** Notions the properties are stated with *)

(** The nodes of a tree, the root first. *)
Fixpoint allNodes (t : TreeNode) : list TreeNode :=
  t :: flat_map allNodes (children t).

(** The nodes [d] levels below [t], left to right. *)
Fixpoint atDepth (d : nat) (t : TreeNode) : list TreeNode :=
  match d with
  | O => [t]
  | S d' => flat_map (atDepth d') (children t)
  end.

(** Level order of a forest: the roots, then the nodes one level down, and
    so on. No level past [forestSize forest] holds a node. *)
Definition levelOrder (forest : list TreeNode) : list TreeNode :=
  flat_map (λ d, flat_map (atDepth d) forest) (seq 0 (forestSize forest)).

Definition nodeY (node : Node.t) : Z := Position.y (Node.position node).

(** What a positioned node keeps of its tree node. *)
Definition nodeContent (node : Node.t) : list N * NodeData.t :=
  (Node.id node, Node.data node).

Definition treeNodeContent (t : TreeNode) : list N * NodeData.t :=
  (id t, {| NodeData.label := label t;
            NodeData.path := Some (path t);
            NodeData.value := value t;
            NodeData.nodeType := type t |}).

(** [data[key]] on the entries of an object. *)
Fixpoint getProperty (entries : list (jsstring * json)) (key : jsstring)
  : option json :=
  match entries with
  | [] => None
  | (k, v) :: rest => if bool_decide (k = key) then Some v else getProperty rest key
  end.

(** Well-formed values: the keys of each object are distinct, as those of a
    JavaScript object are. *)
Fixpoint json_wf (data : json) : bool :=
  match data with
  | JArray items => forallb json_wf items
  | JObject entries =>
      bool_decide (NoDup (map fst entries))
      && forallb (λ entry, json_wf (snd entry)) entries
  | _ => true
  end.

(** A key that holds neither [.] nor [[], the code units that open a path
    segment. *)
Definition plainKey (key : jsstring) : bool :=
  forallb (λ c, negb ((c =? ch_dot) || (c =? ch_lbracket))%N) key.

Fixpoint plainKeys (data : json) : bool :=
  match data with
  | JArray items => forallb plainKeys items
  | JObject entries =>
      forallb (λ entry, plainKey (fst entry) && plainKeys (snd entry)) entries
  | _ => true
  end.

(** The two [forEach] loops of the builder, by name. *)
Fixpoint arrayChildren (parentPath : jsstring) (items : list json) (index : nat)
  : list TreeNode :=
  match items with
  | [] => []
  | item :: rest =>
      jsonToTree item (parentPath ++ js "[" ++ numberToString index ++ js "]")
      ++ arrayChildren parentPath rest (S index)
  end.

Fixpoint objectChildren (parentPath : jsstring) (entries : list (jsstring * json))
  : list TreeNode :=
  match entries with
  | [] => []
  | (key, v) :: rest =>
      jsonToTree v (parentPath ++ js "." ++ key) ++ objectChildren parentPath rest
  end.

(** What follows the parent's path in the path of a node below it: nothing,
    or text that opens a segment. *)
Definition opensSegment (suffix : jsstring) : Prop :=
  match suffix with
  | [] => True
  | c :: _ => c = ch_dot ∨ c = ch_lbracket
  end.

(** The path of [t] is [p], or [p] followed by segments. *)
Definition below (p : jsstring) (t : TreeNode) : Prop :=
  ∃ s, path t = p ++ s ∧ opensSegment s.

(** Every node built from [data] lies below the parent path, and no two of
    them have the same path. *)
Definition distinctPaths (data : json) : Prop :=
  ∀ p, Forall (below p) (flat_map allNodes (jsonToTree data p))
       ∧ NoDup (map path (flat_map allNodes (jsonToTree data p))).

(** The traversal of the flattener on the tree nodes alone. *)
Equations? bfs (queue : list TreeNode) : list TreeNode
  by wf (forestSize queue) lt :=
  bfs [] := [];
  bfs (t :: queue) := t :: bfs (queue ++ children t).
Proof.
  rewrite forestSize_app. unfold forestSize at 3. simpl.
  fold (forestSize queue). rewrite (treeSize_children t). lia.
Qed.

(** The roots, then level after level, [n] levels in all. *)
Fixpoint levelsFrom (n : nat) (forest : list TreeNode) : list TreeNode :=
  match n with
  | O => []
  | S n' => forest ++ levelsFrom n' (flat_map children forest)
  end.

(** [{"a.b":1,"a":{"b":2}}]: a key with a dot in it. *)
Definition dottedKeys : json :=
  JObject [ (js "a.b", JNumber (js "1"));
            (js "a", JObject [ (js "b", JNumber (js "2")) ]) ].

(** [{"a[0]":1,"a":[2]}]: a key with an opening bracket in it. *)
Definition bracketKeys : json :=
  JObject [ (js "a[0]", JNumber (js "1"));
            (js "a", JArray [ JNumber (js "2") ]) ].


(** JavaScript numbers are doubles. The integers they hold one by one are
    those up to [Number.MAX_SAFE_INTEGER], 2^53 - 1, in magnitude: on such
    values, with such a result, the sums and differences of the flattener are
    exact, and they are those of [Z]. *)
Definition MAX_SAFE_INTEGER : Z := 9007199254740991.

Definition safeInteger (z : Z) : Prop :=
  - MAX_SAFE_INTEGER ≤ z ≤ MAX_SAFE_INTEGER.

#[local] Instance safeInteger_dec (z : Z) : Decision (safeInteger z).
Proof. unfold safeInteger. apply _. Defined.

(** The turns of the loop of the flattener: the item each turn takes off the
    queue, with [levelYPositions] as the turn finds it. *)
Equations? flowTrace (queue : list QueueItem.t) (levelYPositions : gmap nat Z)
  : list (QueueItem.t * gmap nat Z) by wf (queueSize queue) lt :=
  flowTrace [] _ := [];
  flowTrace (item :: queue) levelYPositions :=
    (item, levelYPositions)
      :: flowTrace (queue ++ enqueued levelYPositions item)
                   (levelsAfter levelYPositions item).
Proof. apply queueSize_step. Qed.



(** The queue the flattener starts from. *)
Definition startItem (root : TreeNode) (startX startY : Z) : QueueItem.t :=
  {| QueueItem.treeNode := root;
     QueueItem.parentNode := None;
     QueueItem.x := startX;
     QueueItem.y := startY |}.

(** ** The rest of [jsonToTree.ts] *)

Definition getNodeColor (type : JsonNodeType) : jsstring :=
  match type with
  | object => js "#6366f1"
  | array => js "#22c55e"
  | primitive => js "#f59e0b"
  end.

Definition getBorderColor (type : JsonNodeType) : jsstring :=
  match type with
  | object => js "#4f46e5"
  | array => js "#16a34a"
  | primitive => js "#d97706"
  end.

(** One turn of the loop of [findNodeByPath]: the node when its path is the
    one looked for, and else what [findNodeByPath(node.children, path)]
    finds, the inner function. *)
Fixpoint findInNode (searched : jsstring) (node : TreeNode) : option TreeNode :=
  if bool_decide (path node = searched) then Some node
  else (fix findNodeByPath (treeNodes : list TreeNode) : option TreeNode :=
          match treeNodes with
          | [] => None
          | child :: rest =>
              match findInNode searched child with
              | Some found => Some found
              | None => findNodeByPath rest
              end
          end) (children node).

Fixpoint findNodeByPath (treeNodes : list TreeNode) (searched : jsstring)
  : option TreeNode :=
  match treeNodes with
  | [] => None
  | node :: rest =>
      match findInNode searched node with
      | Some found => Some found
      | None => findNodeByPath rest searched
      end
  end.

(** The number of locations of a value: itself, and those of its elements or
    members. *)
Fixpoint jsonSize (data : json) : nat :=
  match data with
  | JArray items => S (sum_list (map jsonSize items))
  | JObject entries => S (sum_list (map (λ entry, jsonSize (snd entry)) entries))
  | _ => 1%nat
  end.

(** What the builder keeps as [value]: [null] for [undefined], the value
    itself otherwise. *)
Definition storedValue (data : json) : json :=
  match data with
  | JUndefined => JNull
  | _ => data
  end.

Definition kindOf (data : json) : JsonNodeType :=
  match data with
  | JArray _ => array
  | JObject _ => object
  | _ => primitive
  end.

(** The number of [.], [[] and []] in a path. *)
Definition delimiters (p : jsstring) : nat := length (List.filter is_delim p).

(** What a parent sees of a child. *)
Definition childSummary (t : TreeNode) : list N * json * JsonNodeType :=
  (path t, value t, type t).


(** The edges from a tree node to its children, as the flattener names
    them. *)
Definition childEdges (t : TreeNode) : list Edge.t :=
  map (λ child, {| Edge.id := id t ++ js "-" ++ id child;
                   Edge.source := id t;
                   Edge.target := id child |})
      (children t).

Definition nodeX (node : Node.t) : Z := Position.x (Node.position node).


(** The state of the path pattern after a text, if it can read it. *)
Fixpoint patternState (st : PatternState) (s : jsstring) : option PatternState :=
  match s with
  | [] => Some st
  | c :: s' =>
      match patternStep st c with
      | Some st' => patternState st' s'
      | None => None
      end
  end.

(** A key that is an identifier, [[a-zA-Z_][a-zA-Z0-9_]*]. *)
Definition identKey (key : jsstring) : bool :=
  match key with
  | [] => false
  | c :: rest => isIdentStart c && forallb isIdentChar rest
  end.

Fixpoint identKeys (data : json) : bool :=
  match data with
  | JArray items => forallb identKeys items
  | JObject entries =>
      forallb (λ entry, identKey (fst entry) && identKeys (snd entry)) entries
  | _ => true
  end.

(** The pattern has read a whole number of segments. *)
Definition atSegmentEnd (p : jsstring) : Prop :=
  patternState AtStart p = Some AtSegmentEnd
  ∨ patternState AtStart p = Some InIdentifier.


(** ** [components/JsonNode.tsx] *)

Definition ch_quote : N := 34.

(** [getValuePreview], on the [value] of the node's data. *)
Definition getValuePreview (value : json) : jsstring :=
  match value with
  | JNull => js "null"
  | JUndefined => js "undefined"
  | JString s =>
      let str := trim s in
      [ch_quote]
      ++ (if (50 <? length str)%nat then take 50 str ++ js "..." else str)
      ++ [ch_quote]
  | JArray items => js "[" ++ numberToString (length items) ++ js " items]"
  | JObject entries => js "{" ++ numberToString (length entries) ++ js " keys}"
  | JBool _ | JNumber _ => String_of value
  end.

(** The line under the label: shown for a primitive node whose value is
    neither [null] nor [undefined]. *)
Definition previewShown (data : NodeData.t) : option jsstring :=
  match NodeData.nodeType data, NodeData.value data with
  | primitive, (JNull | JUndefined) => None
  | primitive, value => Some (getValuePreview value)
  | _, _ => None
  end.

(** The part of [nodeStyles] that depends on the node: the colours of
    [getNodeColor] and [getBorderColor], which the component defines again as
    [jsonToTree.ts] does, and the red of a highlighted node.
    [isHighlighted] is optional, and falsy when missing. *)
Module NodeStyles.
Record t := mk {
  backgroundColor : jsstring;
  border : jsstring;
  boxShadow : jsstring
}.
End NodeStyles.

Definition nodeStyles (nodeType : JsonNodeType) (isHighlighted : option bool)
  : NodeStyles.t :=
  let highlighted := default false isHighlighted in
  let bgColor := getNodeColor nodeType in
  let borderColor :=
    if highlighted then js "#ef4444" else getBorderColor nodeType in
  let boxShadow :=
    if highlighted then js "0 0 20px rgba(239, 68, 68, 0.5)"
    else js "0 4px 6px rgba(0, 0, 0, 0.1)" in
  {| NodeStyles.backgroundColor := bgColor;
     NodeStyles.border := js "3px solid " ++ borderColor;
     NodeStyles.boxShadow := boxShadow |}.


(** ** [App.tsx]: the state and its handlers *)

(** A node as [App] keeps it: the node of the flattener with the
    [data.isHighlighted] that [handleSearch] adds, missing until then. *)
Module AppNode.
Record t := mk {
  node : Node.t;
  isHighlighted : option bool
}.
End AppNode.

(** The state of [App], one field for each [useState]. *)
Module AppState.
Record t := mk {
  jsonInput : jsstring;
  jsonError : jsstring;
  nodes : list AppNode.t;
  edges : list Edge.t;
  searchPath : jsstring;
  highlightedNodes : gset (list N);
  isDarkMode : bool;
  clickedNode : option (jsstring * jsstring);
  searchMessage : jsstring
}.
End AppState.

(** [prevNodes.map((node) => ({ ...node, data: { ...node.data, isHighlighted } }))] *)
Definition setHighlighted (isHighlighted : AppNode.t → bool)
  (prevNodes : list AppNode.t) : list AppNode.t :=
  map (λ node, {| AppNode.node := AppNode.node node;
                  AppNode.isHighlighted := Some (isHighlighted node) |})
      prevNodes.

(** What [handleSearch] sets: the highlighted ids, the message, the nodes. *)
Definition afterSearch (st : AppState.t) (highlighted : gset (list N))
  (message : jsstring) (nodes : list AppNode.t) : AppState.t :=
  {| AppState.jsonInput := AppState.jsonInput st;
     AppState.jsonError := AppState.jsonError st;
     AppState.nodes := nodes;
     AppState.edges := AppState.edges st;
     AppState.searchPath := AppState.searchPath st;
     AppState.highlightedNodes := highlighted;
     AppState.isDarkMode := AppState.isDarkMode st;
     AppState.clickedNode := AppState.clickedNode st;
     AppState.searchMessage := message |}.

(** [handleSearch]. The nodes that [setNodes] maps over, [prevNodes], are
    the nodes the handler has searched. *)
Definition handleSearch (st : AppState.t) : AppState.t :=
  let searchPath := AppState.searchPath st in
  let nodes := AppState.nodes st in
  if negb (truthy (trim searchPath)) then
    afterSearch st ∅ [] (setHighlighted (λ _, false) nodes)
  else
    let matchingNodeIds := searchNodes (map AppNode.node nodes) searchPath in
    if (0 <? length matchingNodeIds)%nat then
      afterSearch st (list_to_set matchingNodeIds)
        (numberToString (length matchingNodeIds) ++ js " match(es) found")
        (setHighlighted
           (λ node, bool_decide (Node.id (AppNode.node node) ∈ matchingNodeIds))
           nodes)
    else
      afterSearch st ∅ (js "No match found") (setHighlighted (λ _, false) nodes).

(** What [handleVisualize] sets, after it has cleared the highlighted ids
    and the message: the error, the nodes and the edges. *)
Definition afterVisualize (st : AppState.t) (jsonError : jsstring)
  (nodes : list Node.t) (edges : list Edge.t) : AppState.t :=
  {| AppState.jsonInput := AppState.jsonInput st;
     AppState.jsonError := jsonError;
     AppState.nodes := map (λ node, AppNode.mk node None) nodes;
     AppState.edges := edges;
     AppState.searchPath := AppState.searchPath st;
     AppState.highlightedNodes := ∅;
     AppState.isDarkMode := AppState.isDarkMode st;
     AppState.clickedNode := AppState.clickedNode st;
     AppState.searchMessage := [] |}.

(** [handleVisualize]. [JSON.parse] is not of this repository: it is a
    parameter, giving the value or the message of the error it throws. The
    builder and the flattener are total here: the call stack is taken deep
    enough for the value. *)
Definition handleVisualize (JSON_parse : jsstring → jsstring + json)
  (st : AppState.t) : AppState.t :=
  let jsonInput := AppState.jsonInput st in
  if negb (truthy (trim jsonInput)) then
    afterVisualize st (js "Please enter JSON data") [] []
  else
    match JSON_parse jsonInput with
    | inl message => afterVisualize st message [] []
    | inr parsedJson =>
        let treeStructure := jsonToTree parsedJson (js "$") in
        if (length treeStructure =? 0)%nat then
          afterVisualize st (js "Unable to parse JSON structure") [] []
        else
          let flow := treeToFlow treeStructure 400 50 in
          afterVisualize st [] (fst flow) (snd flow)
    end.

Definition handleClearInput (st : AppState.t) : AppState.t :=
  {| AppState.jsonInput := [];
     AppState.jsonError := [];
     AppState.nodes := [];
     AppState.edges := [];
     AppState.searchPath := [];
     AppState.highlightedNodes := ∅;
     AppState.isDarkMode := AppState.isDarkMode st;
     AppState.clickedNode := None;
     AppState.searchMessage := [] |}.

(** [String(value)] on a decoded value; [None] when it throws a [TypeError],
    which it does on an object with a key [toString] of its own, whose value
    cannot be called. An array is its elements joined by commas, [null] and
    [undefined] among them as the empty string. *)
Fixpoint ToString (value : json) : option jsstring :=
  match value with
  | JNull => Some (js "null")
  | JUndefined => Some (js "undefined")
  | JBool _ | JNumber _ | JString _ => Some (String_of value)
  | JArray items =>
      (fix join (l : list json) : option jsstring :=
         match l with
         | [] => Some []
         | element :: rest =>
             let text :=
               match element with
               | JNull | JUndefined => Some []
               | _ => ToString element
               end in
             match text, rest with
             | None, _ => None
             | Some text, [] => Some text
             | Some text, _ :: _ =>
                 match join rest with
                 | Some tail => Some (text ++ js "," ++ tail)
                 | None => None
                 end
             end
         end) items
  | JObject entries =>
      if bool_decide (js "toString" ∈ map fst entries) then None
      else Some (js "[object Object]")
  end.

(** [String(node.data.value ?? "N/A")] *)
Definition clickedValue (data : NodeData.t) : option jsstring :=
  match NodeData.value data with
  | JNull | JUndefined => Some (js "N/A")
  | value => ToString value
  end.

(** [handleNodeClick]. When [String] throws, the handler ends before it sets
    anything. *)
Definition handleNodeClick (st : AppState.t) (node : AppNode.t) : AppState.t :=
  let path := nodePathOf (AppNode.node node) in
  match clickedValue (Node.data (AppNode.node node)) with
  | None => st
  | Some value =>
      {| AppState.jsonInput := AppState.jsonInput st;
         AppState.jsonError := AppState.jsonError st;
         AppState.nodes := AppState.nodes st;
         AppState.edges := AppState.edges st;
         AppState.searchPath :=
           if truthy path then path else AppState.searchPath st;
         AppState.highlightedNodes := AppState.highlightedNodes st;
         AppState.isDarkMode := AppState.isDarkMode st;
         AppState.clickedNode := Some (path, value);
         AppState.searchMessage := AppState.searchMessage st |}
  end.

(** What a search decides from the nodes and the query: the highlighted
    ids, the message and the flag of each node. *)
Definition searchOutcome (nodes : list Node.t) (searchPath : jsstring)
  : gset (list N) * jsstring * (AppNode.t → bool) :=
  if negb (truthy (trim searchPath)) then (∅, [], λ _, false)
  else
    let matchingNodeIds := searchNodes nodes searchPath in
    if (0 <? length matchingNodeIds)%nat then
      (list_to_set matchingNodeIds,
       numberToString (length matchingNodeIds) ++ js " match(es) found",
       λ node, bool_decide (Node.id (AppNode.node node) ∈ matchingNodeIds))
    else (∅, js "No match found", λ _, false).

(** The nodes as the flattener made them. *)
Definition plainNodes (st : AppState.t) : list Node.t :=
  map AppNode.node (AppState.nodes st).

(** How many nodes are shown highlighted. *)
Definition highlightedCount (st : AppState.t) : nat :=
  length (List.filter (λ node, default false (AppNode.isHighlighted node))
                      (AppState.nodes st)).

(** A node whose [data.path] is its id, as the flattener makes them all. *)
Definition pathIsId (node : Node.t) : Prop :=
  NodeData.path (Node.data node) = Some (Node.id node).

(** A state to try the handlers on: the text in the input box and in the
    search box, and nothing shown. *)
Definition stateWith (jsonInput searchPath : jsstring) : AppState.t :=
  {| AppState.jsonInput := jsonInput;
     AppState.jsonError := [];
     AppState.nodes := [];
     AppState.edges := [];
     AppState.searchPath := searchPath;
     AppState.highlightedNodes := ∅;
     AppState.isDarkMode := true;
     AppState.clickedNode := None;
     AppState.searchMessage := [] |}.

(** A stand-in for [JSON.parse] that reads [{"a":1,"b":[2,3]}] in any
    text. *)
Definition parseAsSample (text : jsstring) : jsstring + json := inr sample.

(** No object of the value has a key [toString]. *)
Fixpoint noToStringKey (data : json) : bool :=
  match data with
  | JArray items => forallb noToStringKey items
  | JObject entries =>
      negb (bool_decide (js "toString" ∈ map fst entries))
      && forallb (λ entry, noToStringKey (snd entry)) entries
  | _ => true
  end.

(** [[{"x$":{"y ":{"z":1}}}]]: a key that ends in [$], a key that ends in a
    space. *)
Definition dollarKeys : json :=
  JArray [ JObject [ (js "x$", JObject [ (js "y ", JObject [ (js "z", JNumber (js "1")) ]) ]) ] ].


(** * Properties *)

(** ** The definitions on examples *)

Example treeToFlow_sample_ids :
  map Node.id (fst (treeToFlow (jsonToTree sample (js "$")) 400 50))
  = [js "$"; js "$.a"; js "$.b"; js "$.b[0]"; js "$.b[1]"].
Proof. vm_compute. reflexivity. Qed.

Example treeToFlow_sample_edges :
  map Edge.id (snd (treeToFlow (jsonToTree sample (js "$")) 400 50))
  = [js "$-$.a"; js "$-$.b"; js "$.b-$.b[0]"; js "$.b-$.b[1]"].
Proof. vm_compute. reflexivity. Qed.

Example jsonToTree_sample_labels :
  map label (flat_map allNodes (jsonToTree sample (js "$")))
  = [js "root: {Object}"; js "a: 1"; js "b: [Array(2)]"; js "b[0]: 2"; js "b[1]: 3"].
Proof. vm_compute. reflexivity. Qed.

Example pathPattern_ok : pathPattern_test (js "$.user.items[10].name_1") = true.
Proof. reflexivity. Qed.

Example pathPattern_rejects :
  map pathPattern_test [js "$.1a"; js "$[a]"; js "$.a b"; js "$$"; js "$.a."; js "a"]
  = [false; false; false; false; false; false].
Proof. reflexivity. Qed.

Example trim_example : trim (js "  $.a b  ") = js "$.a b".
Proof. reflexivity. Qed.

(** ** Strings *)

Section StringFacts.

Implicit Types s t : list N.

Lemma trimStart_all_white s :
  Forall (λ c, isWhiteSpace c = true) s → trimStart s = [].
Proof. induction 1 as [|c s Hc _ IH]; simpl; [done|]. by rewrite Hc. Qed.

Lemma trimStart_white_nil s :
  Forall (λ c, isWhiteSpace c = true) (trimStart s) → trimStart s = [].
Proof.
  induction s as [|c s IH]; simpl; [done|].
  destruct (isWhiteSpace c) eqn:Hc; [done|].
  intros H. apply Forall_cons in H as [H _]. congruence.
Qed.

Lemma trimStart_nil_white s :
  trimStart s = [] → Forall (λ c, isWhiteSpace c = true) s.
Proof.
  induction s as [|c s IH]; simpl; [constructor|].
  destruct (isWhiteSpace c) eqn:Hc; [|done].
  intros H. constructor; auto.
Qed.

Lemma trimEnd_nil s :
  trimEnd s = [] ↔ Forall (λ c, isWhiteSpace c = true) s.
Proof.
  unfold trimEnd. split.
  - intros H. apply (f_equal reverse) in H.
    rewrite reverse_involutive, reverse_nil in H.
    apply trimStart_nil_white in H. by apply Forall_reverse.
  - intros H. apply Forall_reverse in H.
    by rewrite (trimStart_all_white _ H).
Qed.

(** [trim] leaves nothing exactly of the strings made of white space. *)
Lemma trim_nil s :
  trim s = [] ↔ Forall (λ c, isWhiteSpace c = true) s.
Proof.
  unfold trim. rewrite trimEnd_nil. split.
  - intros H. by apply trimStart_nil_white, trimStart_white_nil.
  - intros H. rewrite (trimStart_all_white _ H). constructor.
Qed.

Lemma truthy_false s : truthy s = false ↔ s = [].
Proof. by destruct s. Qed.

End StringFacts.

(** ** The matcher *)

Lemma searchVisit_push (pat : list N) (acc : list (list N)) (node : Node.t) :
  searchVisit pat acc node
  = acc ++ (if searchSelects pat node then [Node.id node] else []).
Proof.
  unfold searchVisit, searchSelects.
  destruct (bool_decide (nodePathOf node = pat)); simpl; [done|].
  destruct (includes (nodePathOf node) _); simpl; [done|].
  destruct (includes pat _); simpl; [done|]. by rewrite app_nil_r.
Qed.

Lemma foldl_searchVisit (pat : list N) (nodes : list Node.t) (acc : list (list N)) :
  foldl (searchVisit pat) acc nodes
  = acc ++ map Node.id (List.filter (searchSelects pat) nodes).
Proof.
  revert acc. induction nodes as [|node nodes IH]; intros acc; simpl.
  - by rewrite app_nil_r.
  - rewrite IH, searchVisit_push.
    destruct (searchSelects pat node); simpl.
    + by rewrite <- app_assoc.
    + by rewrite app_nil_r.
Qed.

Lemma startsWith_refl (s : list N) : startsWith s s = true.
Proof. induction s as [|c s IH]; simpl; [done|]. by rewrite N.eqb_refl. Qed.

Lemma includes_refl (s : list N) : includes s s = true.
Proof. destruct s; simpl; [done|]. by rewrite N.eqb_refl, startsWith_refl. Qed.

(** C5. For every node list and every query the result of the matcher is the
    list of the ids of the selected nodes, in the order of the input: a node
    is pushed once or not at all, also when its path passes both the equality
    test and the containment test (which every path equal to the pattern
    does), and nothing is sorted or removed afterwards, so the result is a
    subsequence of the input ids with the input's repetitions. *)
Theorem searchNodes_one_entry_per_node (nodes : list Node.t) (searchPath : list N) :
  searchNodes nodes searchPath
  = map Node.id
      (List.filter (λ node, truthy (trim searchPath)
                            && searchSelects (searchPatternOf searchPath) node)
                   nodes)
  ∧ sublist (searchNodes nodes searchPath) (map Node.id nodes)
  ∧ (length (searchNodes nodes searchPath) ≤ length nodes)%nat
  ∧ ∀ (acc : list (list N)) (node : Node.t),
      let pat := nodePathOf node in
      includes pat (nodePathOf node) = true
      ∧ searchVisit pat acc node = acc ++ [Node.id node].
Proof.
  assert (Heq : searchNodes nodes searchPath
    = map Node.id
        (List.filter (λ node, truthy (trim searchPath)
                              && searchSelects (searchPatternOf searchPath) node)
                     nodes)).
  { unfold searchNodes. destruct (truthy (trim searchPath)); simpl.
    - by rewrite foldl_searchVisit.
    - induction nodes; simpl; auto. }
  split; [exact Heq|]. rewrite Heq. clear Heq. split; [|split].
  - induction nodes as [|n nodes IH]; simpl; [constructor|].
    destruct (_ && _); simpl; [by apply sublist_skip | by apply sublist_cons].
  - rewrite length_map. apply List.filter_length_le.
  - intros acc node pat. split; [apply includes_refl|].
    unfold searchVisit. by rewrite bool_decide_eq_true_2.
Qed.

(** C9. On an empty query, and on one made of white space only, the matcher
    returns the empty list whatever the nodes are. *)
Theorem searchNodes_blank_query (nodes : list Node.t) (searchPath : list N) :
  Forall (λ c, isWhiteSpace c = true) searchPath →
  searchNodes nodes searchPath = [].
Proof.
  intros H. apply trim_nil in H. unfold searchNodes. by rewrite H.
Qed.

Lemma searchNodes_blank_query_witness :
  Forall (λ c, isWhiteSpace c = true) (js "  ")
  ∧ searchNodes (fst (treeToFlow (jsonToTree sample (js "$")) 400 50)) (js "  ") = [].
Proof.
  assert (H : Forall (λ c, isWhiteSpace c = true) (js "  ")).
  { repeat constructor. }
  split; [exact H|]. apply (searchNodes_blank_query _ _ H).
Defined.

(** C10. The validity predicate answers true exactly on the strings that
    hold a code unit that is not white space, and false exactly on the empty
    string and the strings of white space; the path pattern has no part in
    the answer, and a string the pattern rejects is still answered true. *)
Theorem isValidJsonPath_nonblank (path : list N) :
  (isValidJsonPath path = true ↔ ∃ c, c ∈ path ∧ isWhiteSpace c = false)
  ∧ (isValidJsonPath path = false ↔ ∀ c, c ∈ path → isWhiteSpace c = true)
  ∧ isValidJsonPath path = truthy (trim path)
  ∧ pathPattern_test (js "not a path") = false
  ∧ isValidJsonPath (js "not a path") = true.
Proof.
  assert (Hv : isValidJsonPath path = truthy (trim path)).
  { unfold isValidJsonPath. destruct (trim path) eqn:Ht; simpl; [done|].
    apply orb_true_r. }
  assert (Hf : isValidJsonPath path = false ↔ ∀ c, c ∈ path → isWhiteSpace c = true).
  { rewrite Hv, truthy_false, trim_nil. apply Forall_forall. }
  split; [|split; [exact Hf|split; [exact Hv|split; reflexivity]]].
  split.
  - intros Ht.
    destruct (decide (Exists (λ c, isWhiteSpace c ≠ true) path)) as [He|Hn].
    + apply Exists_exists in He as (c & Hc & Hw). exists c. split; [done|].
      by destruct (isWhiteSpace c).
    + apply not_Exists_Forall in Hn; [|intros c; apply _].
      assert (isValidJsonPath path = false) as Hfalse; [|congruence].
      apply Hf. intros c Hc. rewrite Forall_forall in Hn.
      specialize (Hn c Hc). simpl in Hn. by destruct (isWhiteSpace c); [|destruct Hn].
  - intros (c & Hc & Hw). apply not_false_iff_true. intros E.
    pose proof (proj1 Hf E c Hc) as Hw'. congruence.
Qed.

(** ** The document [{"a":1,"b":[2,3]}] *)

(** The claim of C1 as the specification words it fails: the root is
    returned as well, because the pattern [$.a] contains the root's path
    [$]. *)
Lemma searchNodes_a_not_only_a :
  searchNodes (fst (treeToFlow (jsonToTree sample (js "$")) 400 50)) (js "$.a")
  ≠ [js "$.a"].
Proof. vm_compute. discriminate. Qed.

(** C1, amended. Over the nodes of the flattened tree of [{"a":1,"b":[2,3]}],
    at any origin, the query [$.a] returns [$] and [$.a], in this order, and
    nothing else. *)
Theorem searchNodes_a_result (startX startY : Z) :
  searchNodes (fst (treeToFlow (jsonToTree sample (js "$")) startX startY))
              (js "$.a")
  = [js "$"; js "$.a"].
Proof. vm_compute. reflexivity. Qed.

(** C6. Over the same nodes the query [b], normalised to [$.b], returns a
    list that holds [$.b], [$.b[0]] and [$.b[1]]; it is the list of the root
    and these three. *)
Theorem searchNodes_b_result (startX startY : Z) :
  let result :=
    searchNodes (fst (treeToFlow (jsonToTree sample (js "$")) startX startY))
                (js "b") in
  searchPatternOf (js "b") = js "$.b"
  ∧ js "$.b" ∈ result ∧ js "$.b[0]" ∈ result ∧ js "$.b[1]" ∈ result
  ∧ result = [js "$"; js "$.b"; js "$.b[0]"; js "$.b[1]"].
Proof.
  assert (H : searchNodes
                (fst (treeToFlow (jsonToTree sample (js "$")) startX startY))
                (js "b")
              = [js "$"; js "$.b"; js "$.b[0]"; js "$.b[1]"]).
  { vm_compute. reflexivity. }
  cbv zeta. rewrite H. split; [reflexivity|].
  repeat split; rewrite !elem_of_cons; auto 10.
Qed.

(** ** Degenerate documents *)

(** C7. From [null], and in the same way from [undefined], the builder
    returns one node: a primitive at path [$] without children, whose label
    [root: null] contains [null]. *)
Theorem jsonToTree_null :
  jsonToTree JNull (js "$")
  = [ {| id := js "$"; path := js "$"; label := js "root: null";
         value := JNull; type := primitive; children := [] |} ]
  ∧ jsonToTree JUndefined (js "$") = jsonToTree JNull (js "$")
  ∧ includes (js "root: null") (js "null") = true.
Proof. repeat split. Qed.

(** C8. From the empty array the builder returns one node of kind array
    without children, and the flattener turns it into one positioned node
    and no edge, at any origin. *)
Theorem empty_array_one_node (startX startY : Z) :
  (∃ root, jsonToTree (JArray []) (js "$") = [root]
           ∧ type root = array ∧ children root = [])
  ∧ length (fst (treeToFlow (jsonToTree (JArray []) (js "$")) startX startY)) = 1%nat
  ∧ length (snd (treeToFlow (jsonToTree (JArray []) (js "$")) startX startY)) = 0%nat.
Proof.
  split; [eexists; repeat split|].
  split; vm_compute; reflexivity.
Qed.

(** ** The vertical placement of children *)

(** [spacing / 2] is exact. *)
Lemma spacing_even (childCount : nat) :
  spacingOf childCount = 2 * (spacingOf childCount / 2).
Proof.
  unfold spacingOf, horizontalSpacing.
  destruct (Z.max_spec 360 (Z.of_nat childCount * 320)) as [[_ ->]|[_ ->]].
  - replace (Z.of_nat childCount * 320) with (Z.of_nat childCount * 160 * 2) by lia.
    rewrite Z.div_mul; lia.
  - reflexivity.
Qed.

Lemma elem_of_enqueued (m : gmap nat Z) (item child : QueueItem.t) :
  child ∈ enqueued m item →
  QueueItem.y child
  = childYOf m (levelOf (QueueItem.treeNode item)) (QueueItem.y item)
  ∧ QueueItem.parentNode child = Some (flowNodeOf item).
Proof.
  unfold enqueued. intros H.
  apply elem_of_lookup_imap in H as (i & c & -> & _). done.
Qed.


(** ** Paths as identifiers *)

#[local] Arguments js : simpl never.
#[local] Arguments numberToString : simpl never.

(** The claim of C3 as the specification words it fails on
    [{"a.b":1,"a":{"b":2}}], whose keys are distinct: the member [a.b] of the
    root and the member [b] of [a] both get the path [$.a.b]. *)
Lemma dottedKeys_shared_path :
  json_wf dottedKeys = true
  ∧ ¬ NoDup (map path (flat_map allNodes (jsonToTree dottedKeys (js "$")))).
Proof.
  split; [reflexivity|].
  intros H. vm_compute in H.
  apply NoDup_cons in H as [_ H]. apply NoDup_cons in H as [H _].
  apply H. rewrite !elem_of_cons. auto.
Qed.

(** An opening bracket in a key does the same: in [{"a[0]":1,"a":[2]}] the
    member [a[0]] and the first element of [a] both get the path [$.a[0]]. *)
Example bracketKeys_shared_path :
  json_wf bracketKeys = true
  ∧ map path (flat_map allNodes (jsonToTree bracketKeys (js "$")))
    = [js "$"; js "$.a[0]"; js "$.a"; js "$.a[0]"].
Proof. split; vm_compute; reflexivity. Qed.

(** Induction on a JSON value, with the hypothesis on every element of an
    array and on every member of an object. *)
Lemma json_nested_ind (P : json → Prop) :
  P JNull → P JUndefined → (∀ b, P (JBool b)) →
  (∀ text, P (JNumber text)) → (∀ s, P (JString s)) →
  (∀ items, Forall P items → P (JArray items)) →
  (∀ entries, Forall (λ entry, P (snd entry)) entries → P (JObject entries)) →
  ∀ data, P data.
Proof.
  intros Hnull Hundef Hbool Hnum Hstr Harr Hobj.
  fix IH 1. intros [| |b|text|s|items|entries].
  - exact Hnull.
  - exact Hundef.
  - apply Hbool.
  - apply Hnum.
  - apply Hstr.
  - apply Harr. induction items as [|item items IHitems].
    + constructor.
    + constructor; [apply IH | exact IHitems].
  - apply Hobj. induction entries as [|[key v] entries IHentries].
    + constructor.
    + constructor; [apply IH | exact IHentries].
Qed.

Section BuilderFacts.

Implicit Types (p s key : list N) (data : json).

Lemma isRoot_childPath p key :
  (if isRoot p then js "$." ++ key else p ++ js "." ++ key) = p ++ js "." ++ key.
Proof.
  unfold isRoot. case_bool_decide as Hp; [|done]. by rewrite Hp.
Qed.

Lemma jsonToTree_array p items :
  ∃ l, jsonToTree (JArray items) p
       = [ mkTreeNode p p l (JArray items) array (arrayChildren p items 0) ].
Proof.
  eexists. cbn [jsonToTree]. do 2 f_equal.
  generalize 0%nat. induction items as [|item items IH]; intros index;
    cbn [arrayChildren].
  - done.
  - by rewrite IH.
Qed.

Lemma jsonToTree_object p entries :
  ∃ l, jsonToTree (JObject entries) p
       = [ mkTreeNode p p l (JObject entries) object (objectChildren p entries) ].
Proof.
  eexists. cbn [jsonToTree]. do 2 f_equal.
  induction entries as [|[key v] entries IH]; cbn [objectChildren]; [done|].
  by rewrite IH, isRoot_childPath.
Qed.

(** Under distinct keys [data[key]] is the value the entry holds, which is
    what the builder recurses on. *)
Lemma obj_get_entry (entries : list (list N * json)) key (v : json) :
  NoDup (map fst entries) → (key, v) ∈ entries →
  getProperty entries key = Some v.
Proof.
  induction entries as [|[k w] entries IH]; simpl; intros Hnd Hin.
  - by apply elem_of_nil in Hin.
  - apply NoDup_cons in Hnd as [Hk Hnd].
    apply elem_of_cons in Hin as [Heq|Hin].
    + injection Heq as -> ->. by rewrite bool_decide_eq_true_2.
    + rewrite bool_decide_eq_false_2; [by apply IH|].
      intros ->. apply Hk. change map with (@fmap list _).
      apply list_elem_of_fmap. by exists (key, v).
Qed.

(** Every node the builder makes has its path as id. *)
Lemma jsonToTree_id_path data :
  ∀ p, Forall (λ t, id t = path t) (flat_map allNodes (jsonToTree data p)).
Proof.
  induction data as [| |b|text|str|items IH|entries IH] using json_nested_ind;
    intros p; try (by repeat constructor).
  - destruct (jsonToTree_array p items) as [l ->]. simpl.
    rewrite app_nil_r. constructor; [done|].
    generalize 0%nat. induction IH as [|item items Hitem _ IHitems];
      intros index; simpl; [constructor|].
    rewrite flat_map_app. apply Forall_app. split; [apply Hitem|apply IHitems].
  - destruct (jsonToTree_object p entries) as [l ->]. simpl.
    rewrite app_nil_r. constructor; [done|].
    induction IH as [|[key v] entries Hentry _ IHentries]; simpl; [constructor|].
    rewrite flat_map_app. apply Forall_app. split; [apply Hentry|apply IHentries].
Qed.

End BuilderFacts.

Section PathFacts.

Implicit Types (p s key : list N) (data : json).

Lemma js_inj (a b : string) : js a = js b → a = b.
Proof.
  unfold js. intros H.
  rewrite <- (string_of_list_ascii_of_string a),
          <- (string_of_list_ascii_of_string b).
  f_equal. revert H.
  generalize (list_ascii_of_string a) (list_ascii_of_string b).
  induction l as [|x l IH]; intros [|y l']; simpl; intros H; try done.
  injection H as Hxy Hl. f_equal; [|by apply IH].
  by rewrite <- (ascii_N_embedding x), <- (ascii_N_embedding y), Hxy.
Qed.

Lemma numberToString_inj (i j : nat) :
  numberToString i = numberToString j → i = j.
Proof.
  unfold numberToString. intros H. apply js_inj in H.
  assert (Hu : Nat.to_uint i = Nat.to_uint j).
  { apply (f_equal NilEmpty.uint_of_string) in H.
    rewrite !NilEmpty.usu in H. by injection H. }
  by rewrite <- (Unsigned.of_to i), <- (Unsigned.of_to j), Hu.
Qed.

Lemma string_of_uint_digits (d : uint) :
  Forall (λ c, isDigit c = true) (js (NilEmpty.string_of_uint d)).
Proof. induction d; unfold js in *; simpl; by constructor. Qed.

Lemma numberToString_no_bracket (n : nat) : ch_rbracket ∉ numberToString n.
Proof.
  intros H. pose proof (string_of_uint_digits (Nat.to_uint n)) as Hd.
  rewrite Forall_forall in Hd. by apply Hd in H.
Qed.

(** Two texts without [c], each followed by [c]: the first [c] tells where
    they end. *)
Lemma app_sep_inj (c : N) (a b s s' : list N) :
  c ∉ a → c ∉ b → a ++ c :: s = b ++ c :: s' → a = b.
Proof.
  revert b. induction a as [|x a IH]; intros [|y b] Ha Hb; simpl; intros H.
  - done.
  - injection H as -> _. exfalso. apply Hb. by left.
  - injection H as -> _. exfalso. apply Ha. by left.
  - injection H as -> H. f_equal. apply IH; [| |done].
    + intros Hin. apply Ha. by right.
    + intros Hin. apply Hb. by right.
Qed.

(** Two plain keys, each followed by nothing or by the opening of a
    segment: the keys are equal. *)
Lemma key_suffix_inj (k k' s s' : list N) :
  plainKey k = true → plainKey k' = true →
  opensSegment s → opensSegment s' →
  k ++ s = k' ++ s' → k = k'.
Proof.
  assert (Hclash : ∀ c (l t : list N),
            plainKey (c :: l) = true → opensSegment (c :: t) → False).
  { intros c l t Hp Ho. simpl in Hp, Ho.
    apply andb_true_iff in Hp as [Hp _].
    destruct Ho as [-> | ->]; by vm_compute in Hp. }
  revert k'. induction k as [|c k IH]; intros [|c' k'] Hk Hk' Hs Hs';
    simpl; intros H.
  - done.
  - subst s. exfalso. eauto.
  - subst s'. exfalso. eauto.
  - injection H as -> H. f_equal.
    simpl in Hk, Hk'. apply andb_true_iff in Hk as [_ Hk].
    apply andb_true_iff in Hk' as [_ Hk']. by apply IH.
Qed.

End PathFacts.

Section PathUniqueness.

Implicit Types (p s key : list N) (data : json) (t : TreeNode).

Lemma root_not_below_itself p c s : p ≠ p ++ c :: s.
Proof.
  intros H. rewrite <- (app_nil_r p) in H at 1. by apply app_inv_head in H.
Qed.

Lemma arrayChildren_paths p (items : list json) :
  Forall distinctPaths items →
  ∀ index,
    let nodes := flat_map allNodes (arrayChildren p items index) in
    Forall (λ t, ∃ j s, (index ≤ j)%nat
              ∧ path t = p ++ ch_lbracket :: numberToString j ++ ch_rbracket :: s)
           nodes
    ∧ NoDup (map path nodes).
Proof.
  induction 1 as [|item items Hitem _ IH]; intros index; cbn [arrayChildren].
  { split; constructor. }
  cbn zeta. rewrite flat_map_app, map_app.
  destruct (Hitem (p ++ js "[" ++ numberToString index ++ js "]")) as [Hb Hnd].
  destruct (IH (S index)) as [Hrest Hndrest].
  assert (Hhere : Forall (λ t, ∃ j s, (index ≤ j)%nat
              ∧ path t = p ++ ch_lbracket :: numberToString j ++ ch_rbracket :: s)
            (flat_map allNodes
               (jsonToTree item (p ++ js "[" ++ numberToString index ++ js "]")))).
  { eapply Forall_impl; [exact Hb|]. intros t (s & -> & _).
    exists index, s. split; [lia|]. by rewrite <- !app_assoc. }
  split.
  - apply Forall_app. split; [exact Hhere|].
    eapply Forall_impl; [exact Hrest|]. intros t (j & s & Hj & ->).
    exists j, s. split; [lia|done].
  - apply NoDup_app. split; [exact Hnd|]. split; [|exact Hndrest].
    intros x Hx Hx'. change map with (@fmap list _) in Hx, Hx'.
    apply list_elem_of_fmap in Hx as (t & -> & Ht).
    apply list_elem_of_fmap in Hx' as (t' & Heq & Ht').
    rewrite Forall_forall in Hb, Hrest.
    destruct (Hb t Ht) as (s & Hpath & _).
    destruct (Hrest t' Ht') as (j' & s' & Hj' & Hpath').
    rewrite Hpath, Hpath', <- !app_assoc in Heq. apply app_inv_head in Heq.
    injection Heq as Heq. apply app_sep_inj in Heq;
      [|apply numberToString_no_bracket..].
    apply numberToString_inj in Heq. lia.
Qed.

Lemma objectChildren_paths p (entries : list (list N * json)) :
  Forall (λ entry, distinctPaths (snd entry)) entries →
  NoDup (map fst entries) →
  Forall (λ entry, plainKey (fst entry) = true) entries →
  let nodes := flat_map allNodes (objectChildren p entries) in
  Forall (λ t, ∃ key s, key ∈ map fst entries ∧ plainKey key = true
            ∧ path t = p ++ ch_dot :: key ++ s ∧ opensSegment s)
         nodes
  ∧ NoDup (map path nodes).
Proof.
  induction 1 as [|[key v] entries Hentry _ IH]; intros Hkeys Hplain;
    cbn [objectChildren].
  { split; constructor. }
  cbn zeta. rewrite flat_map_app, map_app.
  simpl in Hkeys, Hentry. apply NoDup_cons in Hkeys as [Hkey Hkeys].
  apply Forall_cons in Hplain as [Hk Hplain]. simpl in Hk.
  destruct (Hentry (p ++ js "." ++ key)) as [Hb Hnd].
  destruct (IH Hkeys Hplain) as [Hrest Hndrest].
  split.
  - apply Forall_app. split.
    + eapply Forall_impl; [exact Hb|]. intros t (s & -> & Hs).
      exists key, s. split; [simpl; by left|].
      split; [done|]. split; [by rewrite <- !app_assoc|done].
    + eapply Forall_impl; [exact Hrest|].
      intros t (key' & s & Hin & Hk' & -> & Hs).
      exists key', s. split; [simpl; by right|done].
  - apply NoDup_app. split; [exact Hnd|]. split; [|exact Hndrest].
    intros x Hx Hx'. change map with (@fmap list _) in Hx, Hx'.
    apply list_elem_of_fmap in Hx as (t & -> & Ht).
    apply list_elem_of_fmap in Hx' as (t' & Heq & Ht').
    rewrite Forall_forall in Hb, Hrest.
    destruct (Hb t Ht) as (s & Hpath & Hs).
    destruct (Hrest t' Ht') as (key' & s' & Hin & Hk' & Hpath' & Hs').
    rewrite Hpath, Hpath', <- !app_assoc in Heq. apply app_inv_head in Heq.
    injection Heq as Heq. apply key_suffix_inj in Heq; [|done..].
    subst key'. by apply Hkey.
Qed.

(** On a well-formed value with plain keys the builder gives every node a
    path of its own. *)
Lemma jsonToTree_distinctPaths data :
  json_wf data = true → plainKeys data = true → distinctPaths data.
Proof.
  induction data as [| |b|text|str|items IH|entries IH] using json_nested_ind;
    intros Hwf Hplain p.
  1-5: (split; [repeat constructor; exists []; by rewrite app_nil_r
               | simpl; apply NoDup_singleton]).
  - destruct (jsonToTree_array p items) as [l ->].
    assert (Hitems : Forall distinctPaths items).
    { simpl in Hwf, Hplain. rewrite forallb_forall in Hwf, Hplain.
      rewrite Forall_forall in IH |- *. intros item Hin.
      apply IH; [done| |]; [apply Hwf|apply Hplain]; by apply list_elem_of_In. }
    destruct (arrayChildren_paths p items Hitems 0) as [Hb Hnd].
    cbn [flat_map allNodes children]. rewrite app_nil_r. split.
    + constructor; [exists []; by rewrite app_nil_r|].
      eapply Forall_impl; [exact Hb|]. intros t (j & s & _ & Hpath).
      eexists. split; [exact Hpath|]. simpl. by right.
    + cbn [map path]. apply NoDup_cons. split; [|exact Hnd].
      intros Hin. change map with (@fmap list _) in Hin.
      apply list_elem_of_fmap in Hin as (t & Heq & Ht).
      rewrite Forall_forall in Hb. destruct (Hb t Ht) as (j & s & _ & Hpath).
      rewrite Hpath in Heq. by apply root_not_below_itself in Heq.
  - destruct (jsonToTree_object p entries) as [l ->].
    simpl in Hwf, Hplain. apply andb_true_iff in Hwf as [Hkeys Hwf].
    apply bool_decide_eq_true in Hkeys.
    rewrite forallb_forall in Hwf, Hplain.
    assert (Hentries : Forall (λ entry, distinctPaths (snd entry)) entries).
    { rewrite Forall_forall in IH |- *. intros entry Hin.
      apply list_elem_of_In in Hin as Hin'.
      specialize (Hplain entry Hin'). apply andb_true_iff in Hplain as [_ Hp].
      apply IH; [done| |done]. by apply Hwf. }
    assert (Hks : Forall (λ entry, plainKey (fst entry) = true) entries).
    { rewrite Forall_forall. intros entry Hin. apply list_elem_of_In in Hin.
      specialize (Hplain entry Hin). by apply andb_true_iff in Hplain as [Hp _]. }
    destruct (objectChildren_paths p entries Hentries Hkeys Hks) as [Hb Hnd].
    cbn [flat_map allNodes children]. rewrite app_nil_r. split.
    + constructor; [exists []; by rewrite app_nil_r|].
      eapply Forall_impl; [exact Hb|]. intros t (key & s & _ & _ & Hpath & _).
      eexists. split; [exact Hpath|]. simpl. by left.
    + cbn [map path]. apply NoDup_cons. split; [|exact Hnd].
      intros Hin. change map with (@fmap list _) in Hin.
      apply list_elem_of_fmap in Hin as (t & Heq & Ht).
      rewrite Forall_forall in Hb.
      destruct (Hb t Ht) as (key & s & _ & _ & Hpath & _).
      rewrite Hpath in Heq. by apply root_not_below_itself in Heq.
Qed.

End PathUniqueness.

(** C3, amended. In the tree built from any value every node has its path as
    id; and when the value is well formed and none of its object keys holds
    [.] or [[], no two nodes of the tree have the same path (keys that hold
    []] do no harm). *)
Theorem jsonToTree_unique_paths (data : json) :
  Forall (λ t, id t = path t) (flat_map allNodes (jsonToTree data (js "$")))
  ∧ (json_wf data = true → plainKeys data = true →
     NoDup (map path (flat_map allNodes (jsonToTree data (js "$"))))).
Proof.
  split; [apply jsonToTree_id_path|].
  intros Hwf Hplain. by apply jsonToTree_distinctPaths.
Qed.

Lemma jsonToTree_unique_paths_witness :
  json_wf sample = true ∧ plainKeys sample = true
  ∧ NoDup (map path (flat_map allNodes (jsonToTree sample (js "$")))).
Proof.
  assert (Hwf : json_wf sample = true) by reflexivity.
  assert (Hplain : plainKeys sample = true) by reflexivity.
  split; [exact Hwf|]. split; [exact Hplain|].
  exact (proj2 (jsonToTree_unique_paths sample) Hwf Hplain).
Defined.

(** ** The traversal of the flattener *)

Section Traversal.

Implicit Types (t : TreeNode) (forest rest : list TreeNode)
  (queue : list QueueItem.t) (m : gmap nat Z).

Lemma allNodes_unfold t : allNodes t = t :: flat_map allNodes (children t).
Proof. by destruct t. Qed.

Lemma forestSize_cons t forest :
  forestSize (t :: forest) = (S (forestSize (children t)) + forestSize forest)%nat.
Proof.
  change (forestSize (t :: forest)) with (treeSize t + forestSize forest)%nat.
  by rewrite treeSize_children.
Qed.

Lemma forestSize_children forest :
  forestSize forest
  = (length forest + forestSize (flat_map children forest))%nat.
Proof.
  induction forest as [|t forest IH]; [done|].
  rewrite forestSize_cons. cbn [flat_map length].
  rewrite forestSize_app. lia.
Qed.

Lemma bfs_app forest rest :
  bfs (forest ++ rest) = forest ++ bfs (rest ++ flat_map children forest).
Proof.
  revert rest. induction forest as [|t forest IH]; intros rest.
  - cbn [flat_map app]. by rewrite app_nil_r.
  - cbn [flat_map app]. simp bfs. rewrite <- app_assoc, IH.
    by rewrite <- app_assoc.
Qed.

Lemma levelsFrom_nil n : levelsFrom n [] = [].
Proof. induction n; simpl; auto. Qed.

(** The queue visits level after level. *)
Lemma bfs_levelsFrom n forest :
  (forestSize forest ≤ n)%nat → bfs forest = levelsFrom n forest.
Proof.
  revert forest. induction n as [|n IH]; intros forest Hn.
  - destruct forest as [|t forest]; [simp bfs; reflexivity|].
    rewrite forestSize_cons in Hn. lia.
  - destruct forest as [|t forest];
      [simp bfs; by rewrite levelsFrom_nil|].
    cbn [levelsFrom]. rewrite <- IH.
    + rewrite <- (app_nil_r (t :: forest)) at 1. by rewrite bfs_app.
    + rewrite (forestSize_children (t :: forest)) in Hn.
      cbn [length] in Hn. lia.
Qed.

Lemma flat_map_atDepth_0 forest : flat_map (atDepth 0) forest = forest.
Proof. induction forest as [|t forest IH]; simpl; by f_equal. Qed.

Lemma flat_map_atDepth_S d forest :
  flat_map (atDepth (S d)) forest = flat_map (atDepth d) (flat_map children forest).
Proof.
  induction forest as [|t forest IH]; [done|].
  cbn [flat_map]. by rewrite flat_map_app, IH.
Qed.

Lemma flat_map_map {A B C} (f : B → list C) (g : A → B) (l : list A) :
  flat_map f (map g l) = flat_map (λ a, f (g a)) l.
Proof. induction l as [|a l IH]; simpl; by f_equal. Qed.

Lemma levelsFrom_atDepth n forest :
  levelsFrom n forest = flat_map (λ d, flat_map (atDepth d) forest) (seq 0 n).
Proof.
  revert forest. induction n as [|n IH]; intros forest; [done|].
  cbn [levelsFrom seq flat_map]. rewrite flat_map_atDepth_0. f_equal.
  rewrite IH, <- seq_shift, flat_map_map.
  apply flat_map_ext. intros d. by rewrite flat_map_atDepth_S.
Qed.

Lemma bfs_levelOrder forest : bfs forest = levelOrder forest.
Proof.
  unfold levelOrder. rewrite <- levelsFrom_atDepth. by apply bfs_levelsFrom.
Qed.

Lemma allNodes_by_level forest :
  Permutation (flat_map allNodes forest)
              (forest ++ flat_map allNodes (flat_map children forest)).
Proof.
  induction forest as [|t forest IH]; [done|].
  cbn [flat_map]. rewrite allNodes_unfold, flat_map_app, IH.
  cbn [app]. constructor. apply Permutation_app_swap_app.
Qed.

Lemma levelsFrom_allNodes n forest :
  (forestSize forest ≤ n)%nat →
  Permutation (levelsFrom n forest) (flat_map allNodes forest).
Proof.
  revert forest. induction n as [|n IH]; intros forest Hn.
  - destruct forest as [|t forest]; [done|].
    rewrite forestSize_cons in Hn. lia.
  - cbn [levelsFrom]. rewrite allNodes_by_level.
    apply Permutation_app_head. apply IH.
    rewrite (forestSize_children forest) in Hn.
    destruct forest as [|t forest]; [cbn; lia|].
    cbn [length] in Hn. lia.
Qed.

Lemma enqueued_edges m (item : QueueItem.t) :
  length (flat_map edgeOf (enqueued m item))
  = length (children (QueueItem.treeNode item)).
Proof.
  unfold enqueued.
  generalize (QueueItem.x item
              - spacingOf (length (children (QueueItem.treeNode item))) / 2 + 160).
  intros x0. induction (children (QueueItem.treeNode item)) as [|c cs IH]
    using rev_ind; [done|].
  rewrite imap_app, flat_map_app, !length_app, IH. done.
Qed.

(** The loop, from any state: the nodes pushed are those of the traversal,
    and one edge is pushed for every item that has a parent. *)
Lemma flowLoop_trace n :
  ∀ queue m nodes edges, (queueSize queue ≤ n)%nat →
    map nodeContent (fst (flowLoop queue m nodes edges))
    = map nodeContent nodes
      ++ map treeNodeContent (bfs (map QueueItem.treeNode queue))
    ∧ length (fst (flowLoop queue m nodes edges))
      = (length nodes + queueSize queue)%nat
    ∧ (length (snd (flowLoop queue m nodes edges)) + length queue
       = length edges + length (flat_map edgeOf queue) + queueSize queue)%nat.
Proof.
  induction n as [|n IH]; intros queue m nodes edges Hn.
  - destruct queue as [|item queue].
    + simp flowLoop bfs. cbn. rewrite app_nil_r. unfold queueSize. simpl.
      repeat split; lia.
    + unfold queueSize in Hn. cbn [map] in Hn. rewrite forestSize_cons in Hn. lia.
  - destruct queue as [|item queue].
    + simp flowLoop bfs. cbn. rewrite app_nil_r. unfold queueSize. simpl.
      repeat split; lia.
    + simp flowLoop. cbn [map]. simp bfs.
      pose proof (queueSize_step m item queue) as Hlt.
      destruct (IH (queue ++ enqueued m item) (levelsAfter m item)
                   (nodes ++ [flowNodeOf item]) (edges ++ edgeOf item))
        as (Hn1 & Hn2 & Hn3); [lia|].
      rewrite Hn1, Hn2. clear Hn1 Hn2.
      rewrite !map_app, enqueued_treeNodes, <- app_assoc. split; [done|].
      unfold queueSize in *. rewrite map_app, enqueued_treeNodes in *.
      cbn [map] in *. rewrite forestSize_cons, forestSize_app in *.
      rewrite !length_app, flat_map_app, length_app, enqueued_edges in Hn3.
      rewrite !length_app in *. cbn [length flat_map] in *.
      rewrite length_app.
      assert (length (enqueued m item)
              = length (children (QueueItem.treeNode item))) as Hlen
        by apply length_imap.
      split; lia.
Qed.

Lemma jsonToTree_singleton (data : json) (p : list N) :
  ∃ root, jsonToTree data p = [root].
Proof. destruct data; eexists; reflexivity. Qed.

End Traversal.

(** C4. For every value and every origin, the positioned nodes are the nodes
    of the built tree in level order, each with its id, label, path, value
    and kind; level order lists every node of the tree once, so there are as
    many positioned nodes as tree nodes, one at least; and there is one edge
    less than there are positioned nodes: the edges and one more are as many
    as the nodes. *)
Theorem treeToFlow_level_order (data : json) (startX startY : Z) :
  let tree := jsonToTree data (js "$") in
  let out := treeToFlow tree startX startY in
  map nodeContent (fst out) = map treeNodeContent (levelOrder tree)
  ∧ Permutation (levelOrder tree) (flat_map allNodes tree)
  ∧ length (fst out) = length (flat_map allNodes tree)
  ∧ fst out ≠ []
  ∧ (length (snd out) + 1)%nat = length (fst out)
  ∧ length (snd out) = (length (fst out) - 1)%nat.
Proof.
  intros tree out. subst out tree.
  destruct (jsonToTree_singleton data (js "$")) as [root ->].
  unfold treeToFlow.
  set (item := QueueItem.mk root None startX startY).
  destruct (flowLoop_trace (queueSize [item]) [item] {[0%nat := startY]} [] [])
    as (H1 & H2 & H3); [done|].
  assert (Hperm : Permutation (levelOrder [root]) (flat_map allNodes [root])).
  { rewrite <- bfs_levelOrder, (bfs_levelsFrom (forestSize [root])); [|done].
    by apply levelsFrom_allNodes. }
  split; [by rewrite H1, bfs_levelOrder|].
  split; [exact Hperm|].
  assert (Hlen : length (fst (flowLoop [item] {[0%nat := startY]} [] []))
                 = length (flat_map allNodes [root])).
  { rewrite <- (length_map nodeContent), H1. cbn [map app].
    rewrite length_map, bfs_levelOrder. exact (Permutation_length Hperm). }
  split; [exact Hlen|].
  assert (Hsize : (1 ≤ queueSize [item])%nat).
  { unfold queueSize. cbn [map]. rewrite forestSize_cons. lia. }
  cbn [length flat_map edgeOf QueueItem.parentNode item app] in H2, H3.
  split; [|lia].
  intros Hnil. rewrite Hnil in H2. cbn [length] in H2. lia.
Qed.

(** ** The rows of children, along the run of the loop *)

Section Rows.

Implicit Types (queue : list QueueItem.t) (m : gmap nat Z)
  (item : QueueItem.t) (turns : list (QueueItem.t * gmap nat Z)).

(** The nodes and the edges the loop returns are those of its turns. *)
Lemma flowLoop_flowTrace n :
  ∀ queue m nodes edges, (queueSize queue ≤ n)%nat →
    flowLoop queue m nodes edges
    = (nodes ++ map (λ turn, flowNodeOf (fst turn)) (flowTrace queue m),
       edges ++ flat_map (λ turn, edgeOf (fst turn)) (flowTrace queue m)).
Proof.
  induction n as [|n IH]; intros queue m nodes edges Hn;
    (destruct queue as [|item queue];
     [simp flowLoop flowTrace; cbn; by rewrite !app_nil_r|]).
  - unfold queueSize in Hn. cbn [map] in Hn. rewrite forestSize_cons in Hn. lia.
  - simp flowLoop flowTrace. pose proof (queueSize_step m item queue) as Hlt.
    rewrite IH by lia. cbn [map flat_map fst]. by rewrite <- !app_assoc.
Qed.







(** Nothing the loop computes for the rows leaves the interval from [lo] to
    [hi] plus 600 for each node still to come. *)
Lemma flowTrace_bounds (lo : Z) n :
  ∀ queue m (hi : Z), (queueSize queue ≤ n)%nat →
    Forall (λ item, lo ≤ QueueItem.y item ≤ hi) queue →
    (∀ k v, m !! k = Some v → lo ≤ v ≤ hi) →
    Forall (λ turn,
              lo ≤ QueueItem.y (fst turn)
              ∧ QueueItem.y (fst turn) + 600
                ≤ hi + 600 * Z.of_nat (queueSize queue)
              ∧ ∀ k v, snd turn !! k = Some v →
                       lo ≤ v ∧ v + 600 ≤ hi + 600 * Z.of_nat (queueSize queue))
           (flowTrace queue m).
Proof.
  induction n as [|n IH]; intros queue m hi Hn Hqueue Hm;
    (destruct queue as [|item queue]; [simp flowTrace; constructor|]).
  - unfold queueSize in Hn. cbn [map] in Hn. rewrite forestSize_cons in Hn. lia.
  - simp flowTrace. pose proof (queueSize_step m item queue) as Hlt.
    apply Forall_cons in Hqueue as [Hitem Hqueue].
    assert (Hsize : (1 ≤ queueSize (item :: queue))%nat).
    { unfold queueSize. cbn [map]. rewrite forestSize_cons. lia. }
    assert (Hchild : lo ≤ childYOf m (levelOf (QueueItem.treeNode item))
                                   (QueueItem.y item) ≤ hi + 320).
    { unfold childYOf. destruct (m !! _) as [stored|] eqn:Hs; [|lia].
      destruct (Z.eqb_spec stored 0); [lia|]. pose proof (Hm _ _ Hs). lia. }
    constructor.
    + cbn [fst snd]. split; [lia|]. split; [lia|].
      intros k v Hk. pose proof (Hm _ _ Hk). lia.
    + eapply Forall_impl.
      * apply (IH _ _ (hi + 600)); [lia| |].
        -- apply Forall_app. split.
           ++ eapply Forall_impl; [exact Hqueue|]. intros it Hit. cbn beta in Hit. lia.
           ++ apply Forall_forall. intros child Hc.
              apply elem_of_enqueued in Hc as [-> _]. lia.
        -- intros k v Hk. unfold levelsAfter in Hk.
           destruct (children (QueueItem.treeNode item)).
           ++ pose proof (Hm _ _ Hk). lia.
           ++ apply lookup_insert_Some in Hk as [[_ <-]|[_ Hk]]; [lia|].
              pose proof (Hm _ _ Hk). lia.
      * intros turn (H1 & H2 & H3). split; [done|]. split; [lia|].
        intros k v Hk. destruct (H3 k v Hk). lia.
Qed.

End Rows.

Section RowsOfTheRun.

Implicit Types (queue : list QueueItem.t) (m : gmap nat Z)
  (item child : QueueItem.t).



Lemma queueSize_startItem (root : TreeNode) (startX startY : Z) :
  queueSize [startItem root startX startY] = treeSize root.
Proof.
  unfold queueSize. cbn [map startItem QueueItem.treeNode].
  change (forestSize [root]) with (treeSize root + 0)%nat. lia.
Qed.


End RowsOfTheRun.




(** * Further properties of the code *)

(** ** The shape of the built tree *)

(** Induction on a tree node, with the hypothesis on every child. *)
Lemma TreeNode_nested_ind (P : TreeNode → Prop) :
  (∀ i p l v ty cs, Forall P cs → P (mkTreeNode i p l v ty cs)) →
  ∀ t, P t.
Proof.
  intros Hnode. fix IH 1. intros [i p l v ty cs].
  apply Hnode. induction cs as [|c cs IHcs].
  - constructor.
  - constructor; [apply IH | exact IHcs].
Qed.

Section BuilderShape.

Implicit Types (p s key : list N) (data : json) (t : TreeNode).

Lemma jsonToTree_root_node data p :
  ∃ root, jsonToTree data p = [root]
          ∧ id root = p ∧ path root = p
          ∧ value root = storedValue data ∧ type root = kindOf data.
Proof. destruct data as [| |b|text|str|items|entries]; eexists; by repeat split. Qed.

(** A property of the nodes the builder makes for the elements of an array
    holds of all the nodes below the array. *)
Lemma arrayChildren_Forall (P : TreeNode → Prop) p (items : list json) index :
  Forall (λ item, ∀ q, Forall P (flat_map allNodes (jsonToTree item q))) items →
  Forall P (flat_map allNodes (arrayChildren p items index)).
Proof.
  intros H. revert index. induction H as [|item items Hitem _ IH]; intros index;
    cbn [arrayChildren]; [constructor|].
  rewrite flat_map_app. apply Forall_app. split; [apply Hitem|apply IH].
Qed.

Lemma objectChildren_Forall (P : TreeNode → Prop) p (entries : list (list N * json)) :
  Forall (λ entry, ∀ q, Forall P (flat_map allNodes (jsonToTree (snd entry) q)))
         entries →
  Forall P (flat_map allNodes (objectChildren p entries)).
Proof.
  induction 1 as [|[key v] entries Hentry _ IH]; cbn [objectChildren];
    [constructor|].
  rewrite flat_map_app. apply Forall_app. split; [apply Hentry|apply IH].
Qed.

(** A property that holds of the root of whatever the builder returns holds
    of every node of it. *)
Lemma jsonToTree_Forall (P : TreeNode → Prop) :
  (∀ data p root, jsonToTree data p = [root] → P root) →
  ∀ data p, Forall P (flat_map allNodes (jsonToTree data p)).
Proof.
  intros Hroot data.
  induction data as [| |b|text|str|items IH|entries IH] using json_nested_ind;
    intros p.
  1-5: (match goal with
        | |- Forall _ (flat_map _ (jsonToTree ?d ?q)) =>
            pose proof (Hroot d q _ eq_refl) as Hr
        end; by repeat constructor).
  - pose proof (Hroot (JArray items) p) as Hr.
    destruct (jsonToTree_array p items) as [l Heq]. rewrite Heq in Hr |- *.
    cbn [flat_map allNodes children]. rewrite app_nil_r.
    constructor; [by apply Hr|]. by apply arrayChildren_Forall.
  - pose proof (Hroot (JObject entries) p) as Hr.
    destruct (jsonToTree_object p entries) as [l Heq]. rewrite Heq in Hr |- *.
    cbn [flat_map allNodes children]. rewrite app_nil_r.
    constructor; [by apply Hr|]. by apply objectChildren_Forall.
Qed.

Lemma below_trans p s t : below (p ++ s) t → opensSegment (s ++ [ch_dot]) → below p t.
Proof.
  intros (s' & Hpath & Hs') Hs. exists (s ++ s'). split.
  - by rewrite Hpath, app_assoc.
  - destruct s as [|c s]; [done|]. exact Hs.
Qed.

(** Every node the builder makes from a value at [p] has a path that is [p]
    or continues it with a segment. *)
Lemma jsonToTree_below data :
  ∀ p, Forall (below p) (flat_map allNodes (jsonToTree data p)).
Proof.
  induction data as [| |b|text|str|items IH|entries IH] using json_nested_ind;
    intros p.
  1-5: (repeat constructor; exists []; by rewrite app_nil_r).
  - destruct (jsonToTree_array p items) as [l ->].
    cbn [flat_map allNodes children]. rewrite app_nil_r.
    constructor; [exists []; by rewrite app_nil_r|].
    generalize 0%nat. induction IH as [|item items Hitem _ IHitems];
      intros index; cbn [arrayChildren]; [constructor|].
    rewrite flat_map_app. apply Forall_app. split; [|apply IHitems].
    eapply Forall_impl; [apply Hitem|]. intros t Ht.
    apply (below_trans _ _ _ Ht). simpl. by right.
  - destruct (jsonToTree_object p entries) as [l ->].
    cbn [flat_map allNodes children]. rewrite app_nil_r.
    constructor; [exists []; by rewrite app_nil_r|].
    induction IH as [|[key v] entries Hentry _ IHentries];
      cbn [objectChildren]; [constructor|].
    rewrite flat_map_app. apply Forall_app. split; [|apply IHentries].
    eapply Forall_impl; [apply Hentry|]. intros t Ht.
    apply (below_trans _ _ _ Ht). simpl. by left.
Qed.

End BuilderShape.

(** X1. Whatever the value and the parent path, the builder returns exactly
    one node, never none: its id and its path are the parent path, its kind
    is that of the value, and it keeps the value ([null] for [undefined]). *)
Theorem jsonToTree_one_root (data : json) (parentPath : list N) :
  length (jsonToTree data parentPath) = 1%nat
  ∧ ∃ root, jsonToTree data parentPath = [root]
            ∧ id root = parentPath ∧ path root = parentPath
            ∧ value root = storedValue data ∧ type root = kindOf data.
Proof.
  destruct (jsonToTree_root_node data parentPath) as (root & Heq & H).
  split; [by rewrite Heq|]. by exists root.
Qed.

Section BuilderChildren.

Implicit Types (p s key : list N) (data : json) (t : TreeNode).

Lemma arrayChildren_summary p (items : list json) index :
  map childSummary (arrayChildren p items index)
  = imap (λ i item, (p ++ js "[" ++ numberToString (index + i) ++ js "]",
                     storedValue item, kindOf item)) items.
Proof.
  revert index. induction items as [|item items IH]; intros index;
    cbn [arrayChildren]; [done|].
  destruct (jsonToTree_root_node item
              (p ++ js "[" ++ numberToString index ++ js "]"))
    as (root & -> & _ & Hpath & Hvalue & Htype).
  cbn [app map imap]. rewrite IH. f_equal.
  - unfold childSummary. rewrite Hpath, Hvalue, Htype.
    by rewrite Nat.add_0_r.
  - apply imap_ext. intros i item' _. simpl. by rewrite Nat.add_succ_r.
Qed.

Lemma objectChildren_summary p (entries : list (list N * json)) :
  map childSummary (objectChildren p entries)
  = map (λ entry, (p ++ js "." ++ fst entry,
                   storedValue (snd entry), kindOf (snd entry))) entries.
Proof.
  induction entries as [|[key v] entries IH]; cbn [objectChildren]; [done|].
  destruct (jsonToTree_root_node v (p ++ js "." ++ key))
    as (root & -> & _ & Hpath & Hvalue & Htype).
  cbn [app map fst snd]. rewrite IH. f_equal.
  unfold childSummary. by rewrite Hpath, Hvalue, Htype.
Qed.

Lemma arrayChildren_size p (items : list json) index :
  Forall (λ item, ∀ q, length (flat_map allNodes (jsonToTree item q))
                       = jsonSize item) items →
  length (flat_map allNodes (arrayChildren p items index))
  = sum_list (map jsonSize items).
Proof.
  intros H. revert index. induction H as [|item items Hitem _ IH]; intros index;
    cbn [arrayChildren]; [done|].
  rewrite flat_map_app, length_app, Hitem, IH. done.
Qed.

Lemma objectChildren_size p (entries : list (list N * json)) :
  Forall (λ entry, ∀ q, length (flat_map allNodes (jsonToTree (snd entry) q))
                        = jsonSize (snd entry)) entries →
  length (flat_map allNodes (objectChildren p entries))
  = sum_list (map (λ entry, jsonSize (snd entry)) entries).
Proof.
  induction 1 as [|[key v] entries Hentry _ IH]; cbn [objectChildren]; [done|].
  rewrite flat_map_app, length_app, Hentry, IH. done.
Qed.

End BuilderChildren.

(** X2. The children of the node of an array are the nodes of its elements,
    in index order, the [i]-th at the parent path followed by [[i]]; the
    children of the node of an object are the nodes of its members, in key
    order, each at the parent path followed by [.] and the key; each child
    keeps the value of its location and has its kind. Any other value gives
    a node without children. *)
Theorem jsonToTree_children_in_order :
  (∀ (items : list json) (p : list N),
     map childSummary (flat_map children (jsonToTree (JArray items) p))
     = imap (λ i item, (p ++ js "[" ++ numberToString i ++ js "]",
                        storedValue item, kindOf item)) items)
  ∧ (∀ (entries : list (list N * json)) (p : list N),
       map childSummary (flat_map children (jsonToTree (JObject entries) p))
       = map (λ entry, (p ++ js "." ++ fst entry,
                        storedValue (snd entry), kindOf (snd entry))) entries)
  ∧ ∀ (data : json) (p : list N),
      match data with
      | JArray _ | JObject _ => True
      | _ => flat_map children (jsonToTree data p) = []
      end.
Proof.
  split; [|split].
  - intros items p. destruct (jsonToTree_array p items) as [l ->].
    cbn [flat_map children]. rewrite app_nil_r.
    apply (arrayChildren_summary p items 0).
  - intros entries p. destruct (jsonToTree_object p entries) as [l ->].
    cbn [flat_map children]. rewrite app_nil_r.
    apply objectChildren_summary.
  - by intros [| |b|text|str|items|entries] p.
Qed.

(** X3. The built tree has one node for every location of the value: as many
    nodes as the value has locations, at whatever parent path. *)
Theorem jsonToTree_node_count (data : json) (parentPath : list N) :
  length (flat_map allNodes (jsonToTree data parentPath)) = jsonSize data.
Proof.
  revert parentPath.
  induction data as [| |b|text|str|items IH|entries IH] using json_nested_ind;
    intros p; try reflexivity.
  - destruct (jsonToTree_array p items) as [l ->].
    cbn [flat_map allNodes children jsonSize]. rewrite app_nil_r.
    cbn [length]. f_equal. by apply arrayChildren_size.
  - destruct (jsonToTree_object p entries) as [l ->].
    cbn [flat_map allNodes children jsonSize]. rewrite app_nil_r.
    cbn [length]. f_equal. by apply objectChildren_size.
Qed.

Lemma jsonToTree_descendants (data : json) (p : list N) :
  Forall (λ t, ∀ d, d ∈ allNodes t →
                 ∃ s, path d = path t ++ s ∧ opensSegment s)
         (flat_map allNodes (jsonToTree data p)).
Proof.
  apply jsonToTree_Forall. clear. intros data p root Hroot d Hd.
  destruct (jsonToTree_root_node data p) as (root' & Heq & _ & Hpath & _).
  rewrite Heq in Hroot. injection Hroot as ->.
  pose proof (jsonToTree_below data p) as Hb. rewrite Heq in Hb.
  cbn [flat_map] in Hb. rewrite app_nil_r in Hb.
  rewrite Forall_forall in Hb. rewrite Hpath. exact (Hb d Hd).
Qed.

(** X4. In a built tree the path of a node continues the path of every node
    above it: each node below [t] has the path of [t] followed by nothing or
    by text that opens a segment with [.] or [[]. *)
Theorem jsonToTree_paths_extend (data : json) (parentPath : list N) :
  Forall (λ t, ∀ d, d ∈ allNodes t →
                 ∃ s, path d = path t ++ s ∧ opensSegment s)
         (flat_map allNodes (jsonToTree data parentPath)).
Proof. apply jsonToTree_descendants. Qed.

(** ** Looking a node up by its path *)

Section FindNode.

Implicit Types (searched : list N) (t : TreeNode) (forest : list TreeNode).

Lemma find_app {A} (f : A → bool) (l1 l2 : list A) :
  List.find f (l1 ++ l2)
  = match List.find f l1 with
    | Some x => Some x
    | None => List.find f l2
    end.
Proof. induction l1 as [|x l1 IH]; simpl; [done|]. by destruct (f x). Qed.

Lemma findInNode_first searched t :
  findInNode searched t
  = List.find (λ n, bool_decide (path n = searched)) (allNodes t).
Proof.
  induction t as [i p l v ty cs IH] using TreeNode_nested_ind.
  cbn [findInNode allNodes path children List.find].
  destruct (bool_decide (p = searched)); [done|].
  induction IH as [|c cs Hc _ IHcs]; [done|].
  cbn [flat_map]. rewrite find_app, <- Hc, IHcs. done.
Qed.

Lemma findNodeByPath_find forest searched :
  findNodeByPath forest searched
  = List.find (λ n, bool_decide (path n = searched)) (flat_map allNodes forest).
Proof.
  induction forest as [|t forest IH]; [done|].
  cbn [findNodeByPath flat_map]. by rewrite find_app, findInNode_first, IH.
Qed.

Lemma find_unique {A} (f : A → list N) (l : list A) (x : A) :
  NoDup (map f l) → x ∈ l →
  List.find (λ y, bool_decide (f y = f x)) l = Some x.
Proof.
  induction l as [|y l IH]; intros Hnd Hin; [by apply elem_of_nil in Hin|].
  cbn [map] in Hnd. apply NoDup_cons in Hnd as [Hy Hnd].
  cbn [List.find]. apply elem_of_cons in Hin as [->|Hin].
  - by rewrite bool_decide_eq_true_2.
  - rewrite bool_decide_eq_false_2; [by apply IH|].
    intros Heq. apply Hy. rewrite Heq. change map with (@fmap list _).
    apply list_elem_of_fmap. by exists x.
Qed.

End FindNode.

(** X5. [findNodeByPath] returns the first node, in the order root first and
    then the subtrees from left to right, whose path is the one looked for:
    a node it returns is a node of the forest with that path, and it returns
    nothing exactly when no node of the forest has that path. *)
Theorem findNodeByPath_first_match (treeNodes : list TreeNode) (searched : list N) :
  findNodeByPath treeNodes searched
  = List.find (λ n, bool_decide (path n = searched)) (flat_map allNodes treeNodes)
  ∧ (∀ found, findNodeByPath treeNodes searched = Some found →
       path found = searched ∧ found ∈ flat_map allNodes treeNodes)
  ∧ (findNodeByPath treeNodes searched = None
     ↔ ∀ n, n ∈ flat_map allNodes treeNodes → path n ≠ searched).
Proof.
  rewrite findNodeByPath_find. split; [done|]. split.
  - intros found Hfound. apply find_some in Hfound as [Hin Hpath].
    apply bool_decide_eq_true in Hpath. by apply list_elem_of_In in Hin.
  - split.
    + intros Hnone n Hn Hpath. apply list_elem_of_In in Hn.
      pose proof (find_none _ _ Hnone n Hn) as Hf.
      by apply bool_decide_eq_false in Hf.
    + intros Hall.
      destruct (List.find _ _) as [found|] eqn:Hfound; [|done].
      apply find_some in Hfound as [Hin Hpath].
      apply bool_decide_eq_true in Hpath. apply list_elem_of_In in Hin.
      by destruct (Hall found Hin).
Qed.

(** X6. On the tree built from a well-formed value none of whose keys holds
    [.] or [[], looking up the path of a node returns this very node: the
    path is an address of the node in the tree. *)
Theorem findNodeByPath_jsonToTree (data : json) :
  json_wf data = true → plainKeys data = true →
  Forall (λ t, findNodeByPath (jsonToTree data (js "$")) (path t) = Some t)
         (flat_map allNodes (jsonToTree data (js "$"))).
Proof.
  intros Hwf Hplain.
  destruct (jsonToTree_distinctPaths data Hwf Hplain (js "$")) as [_ Hnd].
  apply Forall_forall. intros t Ht.
  rewrite findNodeByPath_find. by apply find_unique.
Qed.

Lemma findNodeByPath_jsonToTree_witness :
  json_wf sample = true ∧ plainKeys sample = true
  ∧ Forall (λ t, findNodeByPath (jsonToTree sample (js "$")) (path t) = Some t)
           (flat_map allNodes (jsonToTree sample (js "$"))).
Proof.
  assert (Hwf : json_wf sample = true) by reflexivity.
  assert (Hplain : plainKeys sample = true) by reflexivity.
  split; [exact Hwf|]. split; [exact Hplain|].
  exact (findNodeByPath_jsonToTree sample Hwf Hplain).
Defined.

(** Without the condition on the keys the lookup can miss a node: in
    [{"a.b":1,"a":{"b":2}}] the path [$.a.b] leads to the member [a.b] of the
    root, of value 1, and the member [b] of [a] is never returned. *)
Example findNodeByPath_dottedKeys :
  value <$> findNodeByPath (jsonToTree dottedKeys (js "$")) (js "$.a.b")
  = Some (JNumber (js "1")).
Proof. vm_compute. reflexivity. Qed.

(** ** The depth the flattener reads off a path *)

Section Levels.

Implicit Types (p s : list N).

Lemma split_length (sep : N → bool) s :
  length (split sep s) = S (length (List.filter sep s)).
Proof.
  induction s as [|c s IH]; [done|]. cbn [split List.filter].
  destruct (sep c); cbn [length]; [by rewrite IH|].
  destruct (split sep s) as [|seg segs]; [done|exact IH].
Qed.

Lemma delimiters_app p s : delimiters (p ++ s) = (delimiters p + delimiters s)%nat.
Proof. unfold delimiters. by rewrite List.filter_app, length_app. Qed.

Lemma delimiters_digits (n : nat) : delimiters (numberToString n) = 0%nat.
Proof.
  unfold delimiters, numberToString.
  pose proof (string_of_uint_digits (Nat.to_uint n)) as Hd.
  induction Hd as [|c l Hc _ IH]; [done|]. cbn [List.filter].
  assert (is_delim c = false) as ->; [|exact IH].
  unfold isDigit in Hc. unfold is_delim, ch_dot, ch_lbracket, ch_rbracket.
  apply andb_true_iff in Hc as [H1 H2].
  apply N.leb_le in H1, H2.
  repeat (apply orb_false_iff; split); apply N.eqb_neq; lia.
Qed.

Lemma levelOf_delimiters (t : TreeNode) : levelOf t = delimiters (path t).
Proof. unfold levelOf, delimiters. rewrite split_length. cbn [Nat.sub]. lia. Qed.

Lemma arrayChildren_levels p (items : list json) index :
  Forall (λ c, levelOf c = (delimiters p + 2)%nat) (arrayChildren p items index).
Proof.
  revert index. induction items as [|item items IH]; intros index;
    cbn [arrayChildren]; [constructor|].
  destruct (jsonToTree_root_node item
              (p ++ js "[" ++ numberToString index ++ js "]"))
    as (root & -> & _ & Hpath & _).
  cbn [app]. constructor; [|apply IH].
  rewrite levelOf_delimiters, Hpath, !delimiters_app, delimiters_digits.
  change (delimiters (js "[")) with 1%nat.
  change (delimiters (js "]")) with 1%nat. lia.
Qed.

Lemma objectChildren_levels p (entries : list (list N * json)) :
  map levelOf (objectChildren p entries)
  = map (λ entry, (delimiters p + 1 + delimiters (fst entry))%nat) entries.
Proof.
  induction entries as [|[key v] entries IH]; cbn [objectChildren]; [done|].
  destruct (jsonToTree_root_node v (p ++ js "." ++ key))
    as (root & -> & _ & Hpath & _).
  cbn [app map fst]. rewrite IH. f_equal.
  rewrite levelOf_delimiters, Hpath, !delimiters_app.
  change (delimiters (js ".")) with 1%nat. lia.
Qed.

End Levels.

(** X7. The level the flattener computes for a node is the number of [.],
    [[] and []] in its path. So an element of an array is two levels below
    the array, and a member of an object is one level below the object, plus
    one for every such code unit in its key. *)
Theorem levelOf_counts_delimiters :
  (∀ t : TreeNode, levelOf t = delimiters (path t))
  ∧ (∀ (items : list json) (p : list N),
       Forall (λ c, levelOf c = (delimiters p + 2)%nat)
              (flat_map children (jsonToTree (JArray items) p)))
  ∧ ∀ (entries : list (list N * json)) (p : list N),
      map levelOf (flat_map children (jsonToTree (JObject entries) p))
      = map (λ entry, (delimiters p + 1 + delimiters (fst entry))%nat) entries.
Proof.
  split; [apply levelOf_delimiters|]. split.
  - intros items p. destruct (jsonToTree_array p items) as [l ->].
    cbn [flat_map children]. rewrite app_nil_r. apply arrayChildren_levels.
  - intros entries p. destruct (jsonToTree_object p entries) as [l ->].
    cbn [flat_map children]. rewrite app_nil_r. apply objectChildren_levels.
Qed.

(** ** The output of the flattener *)

Section FlowOutput.

Implicit Types (t : TreeNode) (forest : list TreeNode)
  (queue : list QueueItem.t) (m : gmap nat Z)
  (nodes : list Node.t) (edges : list Edge.t).

(** The loop only adds to the arrays it is given. *)
Lemma flowLoop_acc n :
  ∀ queue m nodes edges, (queueSize queue ≤ n)%nat →
    flowLoop queue m nodes edges
    = (nodes ++ fst (flowLoop queue m [] []),
       edges ++ snd (flowLoop queue m [] [])).
Proof.
  induction n as [|n IH]; intros queue m nodes edges Hn;
    (destruct queue as [|item queue];
     [simp flowLoop; cbn; by rewrite !app_nil_r|]).
  - unfold queueSize in Hn. cbn [map] in Hn. rewrite forestSize_cons in Hn. lia.
  - simp flowLoop. pose proof (queueSize_step m item queue) as Hlt.
    rewrite (IH _ _ (nodes ++ _) (edges ++ _)); [|lia].
    rewrite (IH _ _ ([] ++ _) ([] ++ _)); [|lia].
    cbn [fst snd app]. by rewrite <- !app_assoc.
Qed.

Lemma flowLoop_cons item queue m :
  flowLoop (item :: queue) m [] []
  = (flowNodeOf item
       :: fst (flowLoop (queue ++ enqueued m item) (levelsAfter m item) [] []),
     edgeOf item
       ++ snd (flowLoop (queue ++ enqueued m item) (levelsAfter m item) [] [])).
Proof.
  simp flowLoop. by rewrite (flowLoop_acc _ _ _ _ _ (Nat.le_refl _)).
Qed.

Lemma enqueued_childEdges m (item : QueueItem.t) :
  flat_map edgeOf (enqueued m item) = childEdges (QueueItem.treeNode item).
Proof.
  unfold enqueued, childEdges.
  generalize (QueueItem.x item
              - spacingOf (length (children (QueueItem.treeNode item))) / 2 + 160).
  intros x0. induction (children (QueueItem.treeNode item)) as [|c cs IH]
    using rev_ind; [done|].
  rewrite imap_app, flat_map_app, map_app, IH. cbn. done.
Qed.

(** Every node the queue delivers brings its children after the nodes that
    wait. *)
Lemma bfs_children n :
  ∀ forest, (forestSize forest ≤ n)%nat →
    bfs forest = forest ++ flat_map children (bfs forest).
Proof.
  induction n as [|n IH]; intros forest Hn;
    (destruct forest as [|t forest]; [by simp bfs|]).
  - rewrite forestSize_cons in Hn. lia.
  - simp bfs. cbn [flat_map app]. f_equal.
    rewrite (IH (forest ++ children t)) at 1.
    + by rewrite <- app_assoc.
    + rewrite forestSize_cons in Hn. rewrite forestSize_app. lia.
Qed.

Lemma flowLoop_edges n :
  ∀ queue m, (queueSize queue ≤ n)%nat →
    snd (flowLoop queue m [] [])
    = flat_map edgeOf queue
      ++ flat_map childEdges (bfs (map QueueItem.treeNode queue)).
Proof.
  induction n as [|n IH]; intros queue m Hn;
    (destruct queue as [|item queue]; [by simp flowLoop bfs|]).
  - unfold queueSize in Hn. cbn [map] in Hn. rewrite forestSize_cons in Hn. lia.
  - rewrite flowLoop_cons. cbn [snd map flat_map]. simp bfs.
    pose proof (queueSize_step m item queue) as Hlt.
    rewrite IH; [|lia]. cbn [flat_map].
    rewrite map_app, enqueued_treeNodes, flat_map_app, enqueued_childEdges.
    by rewrite <- !app_assoc.
Qed.

Lemma flowLoop_contents n :
  ∀ queue m, (queueSize queue ≤ n)%nat →
    map nodeContent (fst (flowLoop queue m [] []))
    = map treeNodeContent (bfs (map QueueItem.treeNode queue)).
Proof.
  intros queue m Hn.
  by destruct (flowLoop_trace n queue m [] [] Hn) as [-> _].
Qed.

End FlowOutput.

(** X8. The flattener works on the first tree of the forest it is given and
    returns nothing for an empty forest. Whatever the tree, built or not,
    its nodes come out in level order, and its edges are, in the same order,
    the edges from each node to its children, each named after the two ids;
    so every node but the first is the target of one edge, in order. *)
Theorem treeToFlow_edges (root : TreeNode) (rest : list TreeNode) (startX startY : Z) :
  let out := treeToFlow (root :: rest) startX startY in
  treeToFlow [] startX startY = ([], [])
  ∧ map nodeContent (fst out) = map treeNodeContent (levelOrder [root])
  ∧ snd out = flat_map childEdges (levelOrder [root])
  ∧ map Edge.target (snd out) = tail (map Node.id (fst out))
  ∧ Forall (λ edge, Edge.id edge = Edge.source edge ++ js "-" ++ Edge.target edge)
           (snd out).
Proof.
  intros out. subst out. unfold treeToFlow.
  set (item := QueueItem.mk root None startX startY).
  pose proof (flowLoop_contents _ [item] {[0%nat := startY]} (Nat.le_refl _))
    as Hnodes.
  pose proof (flowLoop_edges _ [item] {[0%nat := startY]} (Nat.le_refl _))
    as Hedges.
  cbn [map flat_map edgeOf QueueItem.parentNode item app] in Hnodes, Hedges.
  change (QueueItem.treeNode item) with root in Hnodes, Hedges.
  split; [done|]. split; [by rewrite Hnodes, bfs_levelOrder|].
  split; [by rewrite Hedges, bfs_levelOrder|]. split.
  - assert (Hids : map Node.id (fst (flowLoop [item] {[0%nat := startY]} [] []))
                   = map id (bfs [root])).
    { apply (f_equal (map fst)) in Hnodes. by rewrite !map_map in Hnodes. }
    assert (Htail : tail (map id (bfs [root]))
                    = map id (flat_map children (bfs [root]))).
    { by rewrite (bfs_children _ [root] (Nat.le_refl _)) at 1. }
    rewrite Hids, Hedges, Htail. generalize (bfs [root]). intros l.
    induction l as [|t l IH]; [done|].
    cbn [flat_map]. rewrite !map_app, IH. f_equal.
    unfold childEdges. by rewrite !map_map.
  - rewrite Hedges. generalize (bfs [root]). intros l.
    induction l as [|t l IH]; [constructor|].
    cbn [flat_map]. apply Forall_app. split; [|exact IH].
    unfold childEdges. apply Forall_forall. intros edge Hin.
    change map with (@fmap list _) in Hin.
    by apply list_elem_of_fmap in Hin as (c & -> & _).
Qed.

Section FlowPositions.

Implicit Types (queue : list QueueItem.t) (m : gmap nat Z).

(** No node lies above a line that the waiting items and the stored levels,
    those of index 1 and more, are not above. *)
Lemma flowLoop_y_bound (limit : Z) n :
  ∀ queue m, (queueSize queue ≤ n)%nat →
    Forall (λ item, limit ≤ QueueItem.y item) queue →
    (∀ k v, m !! k = Some v → (1 ≤ k)%nat → limit ≤ v) →
    Forall (λ node, limit ≤ nodeY node) (fst (flowLoop queue m [] [])).
Proof.
  induction n as [|n IH]; intros queue m Hn Hqueue Hm;
    (destruct queue as [|item queue]; [simp flowLoop; constructor|]).
  - unfold queueSize in Hn. cbn [map] in Hn. rewrite forestSize_cons in Hn. lia.
  - rewrite flowLoop_cons. cbn [fst].
    apply Forall_cons in Hqueue as [Hitem Hqueue].
    constructor; [exact Hitem|].
    pose proof (queueSize_step m item queue) as Hlt.
    assert (Hchild : limit ≤ childYOf m (levelOf (QueueItem.treeNode item))
                                      (QueueItem.y item)).
    { unfold childYOf.
      destruct (m !! _) as [stored|] eqn:Hs; [|lia].
      destruct (Z.eqb_spec stored 0); [lia|]. apply (Hm _ _ Hs). lia. }
    apply IH; [lia| |].
    + apply Forall_app. split; [exact Hqueue|].
      apply Forall_forall. intros child Hc.
      by apply elem_of_enqueued in Hc as [-> _].
    + intros k v Hk Hk1. unfold levelsAfter in Hk.
      destruct (children (QueueItem.treeNode item)); [by eapply Hm|].
      apply lookup_insert_Some in Hk as [[_ <-]|[_ Hk]]; [lia|by eapply Hm].
Qed.


End FlowPositions.

(** X9. For an origin of integers, with x, y and y plus 600 for each node
    of the tree within the integers a double holds exactly: the first
    positioned node is the root, placed at the origin given, and every other
    node lies at least 320 below it and at most 600 for each node of the
    tree, so that every y is a safe integer: no node of the tree is placed
    above or beside the root. *)
Theorem treeToFlow_below_root (root : TreeNode) (rest : list TreeNode)
  (startX startY : Z) :
  safeInteger startX →
  - MAX_SAFE_INTEGER ≤ startY →
  startY + 600 * Z.of_nat (treeSize root) ≤ MAX_SAFE_INTEGER →
  ∃ first others,
    fst (treeToFlow (root :: rest) startX startY) = first :: others
    ∧ Node.id first = id root ∧ nodeX first = startX ∧ nodeY first = startY
    ∧ Forall (λ node, startY + 320 ≤ nodeY node) others
    ∧ Forall (λ node, nodeY node + 600
                      ≤ startY + 600 * Z.of_nat (treeSize root)
                      ∧ safeInteger (nodeY node))
             (first :: others).
Proof.
  intros HstartX Hlo Hhi.
  assert (Hsize := queueSize_startItem root startX startY).
  assert (Hupper :
    Forall (λ node, nodeY node + 600 ≤ startY + 600 * Z.of_nat (treeSize root)
                    ∧ safeInteger (nodeY node))
           (fst (treeToFlow (root :: rest) startX startY))).
  { unfold treeToFlow. fold (startItem root startX startY).
    rewrite (flowLoop_flowTrace (treeSize root)) by lia. cbn [fst app].
    apply Forall_map.
    assert (Hb : Forall (λ it, startY ≤ QueueItem.y it ≤ startY)
                        [startItem root startX startY])
      by (constructor; [cbn; lia|constructor]).
    apply (flowTrace_bounds startY (treeSize root)
             [startItem root startX startY] {[ 0%nat := startY ]}
             startY ltac:(lia)) in Hb.
    - rewrite Hsize in Hb. eapply Forall_impl; [exact Hb|].
      intros turn (H1 & H2 & _). unfold safeInteger, nodeY. cbn. lia.
    - intros k v Hk. apply lookup_singleton_Some in Hk as [_ <-]. lia. }
  revert Hupper.
  unfold treeToFlow. rewrite flowLoop_cons. cbn [fst app]. intros Hupper.
  eexists _, _. split; [reflexivity|]. do 3 (split; [reflexivity|]).
  split; [|exact Hupper].
  set (item := QueueItem.mk root None startX startY).
  apply (flowLoop_y_bound _ _ _ _ (Nat.le_refl _)).
  - apply Forall_forall. intros child Hc.
    apply elem_of_enqueued in Hc as [-> _].
    unfold childYOf. rewrite lookup_singleton_ne; [simpl; lia|lia].
  - intros k v Hk Hk1. unfold levelsAfter in Hk.
    destruct (children (QueueItem.treeNode item)).
    + rewrite lookup_singleton_ne in Hk; [done|lia].
    + apply lookup_insert_Some in Hk as [[_ <-]|[_ Hk]].
      * unfold childYOf. rewrite lookup_singleton_ne; [simpl; lia|lia].
      * rewrite lookup_singleton_ne in Hk; [done|lia].
Qed.

(** On [{"a":1,"b":[2,3]}] from the default origin, (400, 50). *)
Lemma treeToFlow_below_root_witness :
  ∃ root,
    jsonToTree sample (js "$") = [root]
    ∧ safeInteger 400
    ∧ - MAX_SAFE_INTEGER ≤ 50
    ∧ 50 + 600 * Z.of_nat (treeSize root) ≤ MAX_SAFE_INTEGER
    ∧ ∃ first others,
        fst (treeToFlow [root] 400 50) = first :: others
        ∧ nodeX first = 400 ∧ nodeY first = 50
        ∧ Forall (λ node, 370 ≤ nodeY node) others.
Proof.
  eexists. split; [reflexivity|].
  match goal with
  | |- context [treeToFlow [?r] 400 50] => set (root := r)
  end.
  assert (Hx : safeInteger 400) by (vm_compute; split; discriminate).
  assert (Hlo : - MAX_SAFE_INTEGER ≤ 50) by (vm_compute; discriminate).
  assert (Hhi : 50 + 600 * Z.of_nat (treeSize root) ≤ MAX_SAFE_INTEGER)
    by (vm_compute; discriminate).
  split; [exact Hx|]. split; [exact Hlo|]. split; [exact Hhi|].
  destruct (treeToFlow_below_root root [] 400 50 Hx Hlo Hhi)
    as (first & others & Hout & _ & HfirstX & HfirstY & Hbelow & _).
  exists first, others. split; [exact Hout|].
  split; [exact HfirstX|]. split; [exact HfirstY|]. exact Hbelow.
Defined.



(** ** The matcher on a flattened tree *)

Section MatcherFacts.

Implicit Types (s t q pat : list N) (nodes : list Node.t).

Lemma searchNodes_filter nodes q :
  searchNodes nodes q
  = if truthy (trim q)
    then map Node.id (List.filter (searchSelects (searchPatternOf q)) nodes)
    else [].
Proof.
  unfold searchNodes. destruct (truthy (trim q)); [|done].
  by rewrite foldl_searchVisit.
Qed.

Lemma searchNodes_elem nodes q (node : Node.t) :
  trim q ≠ [] → node ∈ nodes →
  searchSelects (searchPatternOf q) node = true →
  Node.id node ∈ searchNodes nodes q.
Proof.
  intros Hq Hin Hsel. rewrite searchNodes_filter.
  destruct (trim q) eqn:Ht; [done|]. cbn [truthy].
  change map with (@fmap list _). apply list_elem_of_fmap.
  exists node. split; [done|]. apply list_elem_of_In, filter_In.
  split; [by apply list_elem_of_In|done].
Qed.

Lemma searchPatternOf_dollar q : startsWith (searchPatternOf q) (js "$") = true.
Proof.
  unfold searchPatternOf.
  by destruct (startsWith (trim q) (js "$")) eqn:H.
Qed.

Lemma startsWith_app s t : startsWith (s ++ t) s = true.
Proof. induction s as [|c s IH]; [by destruct t|]. simpl. by rewrite N.eqb_refl. Qed.

Lemma startsWith_includes s t : startsWith s t = true → includes s t = true.
Proof. intros H. destruct s; simpl in *; by rewrite H. Qed.

Lemma includes_cons c s t : includes s t = true → includes (c :: s) t = true.
Proof. intros H. cbn [includes]. rewrite H. apply orb_true_r. Qed.

(** A text contains every part of it. *)
Lemma includes_app s t u : includes (s ++ t ++ u) t = true.
Proof.
  induction s as [|c s IH].
  - cbn [app]. apply startsWith_includes, startsWith_app.
  - by apply includes_cons.
Qed.

Lemma includes_prefix s t : includes (s ++ t) s = true.
Proof. apply startsWith_includes, startsWith_app. Qed.

End MatcherFacts.

Section Trimming.

Implicit Types s t : list N.

Lemma trimStart_idemp s : trimStart (trimStart s) = trimStart s.
Proof.
  induction s as [|c s IH]; [done|]. simpl.
  destruct (isWhiteSpace c) eqn:Hc; [done|]. simpl. by rewrite Hc.
Qed.

Lemma trimStart_snoc s c :
  isWhiteSpace c = false → trimStart (s ++ [c]) = trimStart s ++ [c].
Proof.
  intros Hc. induction s as [|d s IH]; simpl; [by rewrite Hc|].
  by destruct (isWhiteSpace d).
Qed.

Lemma trimEnd_idemp s : trimEnd (trimEnd s) = trimEnd s.
Proof. unfold trimEnd. by rewrite reverse_involutive, trimStart_idemp. Qed.

Lemma trimEnd_cons c s :
  isWhiteSpace c = false → trimEnd (c :: s) = c :: trimEnd s.
Proof.
  intros Hc. unfold trimEnd.
  by rewrite reverse_cons, trimStart_snoc, reverse_app.
Qed.

(** What [trim] returns is empty or starts with a code unit that is not
    white space, and [trim] leaves it as it is. *)
Lemma trim_cases s :
  trim s = []
  ∨ ∃ c r, isWhiteSpace c = false ∧ trim s = c :: trimEnd r.
Proof.
  unfold trim. induction s as [|c s IH]; [by left|]. simpl.
  destruct (isWhiteSpace c) eqn:Hc; [exact IH|].
  right. exists c, s. by rewrite trimEnd_cons.
Qed.

Lemma trim_idemp s : trim (trim s) = trim s.
Proof.
  destruct (trim_cases s) as [->|(c & r & Hc & ->)]; [done|].
  unfold trim. simpl. rewrite Hc. by rewrite trimEnd_cons, trimEnd_idemp.
Qed.

Lemma trim_dollar_dot s :
  trim s ≠ [] → trim (js "$." ++ trim s) = js "$." ++ trim s.
Proof.
  intros Hs. destruct (trim_cases s) as [H|(c & r & Hc & ->)]; [done|].
  unfold trim. change (js "$.") with [ch_dollar; ch_dot]. cbn [app trimStart].
  change (isWhiteSpace ch_dollar) with false. cbn iota.
  rewrite !trimEnd_cons by done. by rewrite trimEnd_idemp.
Qed.

Lemma searchPatternOf_trimmed q :
  trim q ≠ [] →
  trim (searchPatternOf q) = searchPatternOf q.
Proof.
  intros Hq. unfold searchPatternOf.
  destruct (startsWith (trim q) (js "$")); [apply trim_idemp|].
  by apply trim_dollar_dot.
Qed.

Lemma searchPatternOf_idemp q :
  trim q ≠ [] → searchPatternOf (searchPatternOf q) = searchPatternOf q.
Proof.
  intros Hq. unfold searchPatternOf at 1.
  rewrite (searchPatternOf_trimmed q Hq). by rewrite searchPatternOf_dollar.
Qed.

End Trimming.

(** X11. The matcher reads a query up to the white space around it and up
    to a leading [$.]: the query, the query trimmed and the pattern made of
    it ([$.] put in front unless it starts with [$]) all give the same
    result. So [b], [  b ] and [$.b] are one query. *)
Theorem searchNodes_normalised (nodes : list Node.t) (searchPath : list N) :
  searchNodes nodes (trim searchPath) = searchNodes nodes searchPath
  ∧ searchNodes nodes searchPath
    = if truthy (trim searchPath)
      then searchNodes nodes (searchPatternOf searchPath)
      else [].
Proof.
  split.
  - unfold searchNodes, searchPatternOf. by rewrite !trim_idemp.
  - rewrite (searchNodes_filter nodes searchPath).
    destruct (trim searchPath) as [|c r] eqn:Ht; [done|]. cbn [truthy].
    assert (Hq : trim searchPath ≠ []) by by rewrite Ht.
    rewrite searchNodes_filter, searchPatternOf_trimmed, searchPatternOf_idemp
      by done.
    pose proof (searchPatternOf_dollar searchPath) as Hd.
    by destruct (searchPatternOf searchPath).
Qed.

(** X12. The matcher decides on every node by itself: the result on two lists
    of nodes put end to end is the result on the first followed by the result
    on the second. *)
Theorem searchNodes_app (nodes1 nodes2 : list Node.t) (searchPath : list N) :
  searchNodes (nodes1 ++ nodes2) searchPath
  = searchNodes nodes1 searchPath ++ searchNodes nodes2 searchPath.
Proof.
  rewrite !searchNodes_filter. destruct (truthy (trim searchPath)); [|done].
  by rewrite List.filter_app, map_app.
Qed.

Lemma searchNodes_root_head (data : json) (startX startY : Z) (q : list N) :
  trim q ≠ [] →
  ∃ first rest,
    fst (treeToFlow (jsonToTree data (js "$")) startX startY) = first :: rest
    ∧ Node.id first = js "$"
    ∧ searchSelects (searchPatternOf q) first = true.
Proof.
  intros Hq.
  destruct (jsonToTree_root_node data (js "$")) as (root & -> & Hid & Hpath & _).
  unfold treeToFlow. rewrite flowLoop_cons. cbn [fst].
  eexists _, _. split; [reflexivity|]. split; [exact Hid|].
  unfold searchSelects, nodePathOf. cbn. rewrite Hpath.
  rewrite (startsWith_includes _ _ (searchPatternOf_dollar q)).
  apply orb_true_r.
Qed.

(** X13. On the nodes of a flattened built tree every query that is not
    blank returns the root first: the pattern always starts with [$], the
    path of the root, and so contains it. Such a search is never without a
    match. *)
Theorem searchNodes_root_first (data : json) (startX startY : Z)
  (searchPath : list N) :
  trim searchPath ≠ [] →
  ∃ others,
    searchNodes (fst (treeToFlow (jsonToTree data (js "$")) startX startY))
                searchPath
    = js "$" :: others.
Proof.
  intros Hq.
  destruct (jsonToTree_root_node data (js "$")) as (root & -> & Hid & Hpath & _).
  unfold treeToFlow. rewrite flowLoop_cons. cbn [fst].
  rewrite searchNodes_filter.
  destruct (trim searchPath) eqn:Ht; [done|]. cbn [truthy List.filter].
  assert (searchSelects (searchPatternOf searchPath)
            (flowNodeOf (QueueItem.mk root None startX startY)) = true) as ->.
  { unfold searchSelects, nodePathOf. cbn. rewrite Hpath.
    rewrite (startsWith_includes _ _ (searchPatternOf_dollar searchPath)).
    apply orb_true_r. }
  cbn [map flowNodeOf Node.id QueueItem.treeNode]. rewrite Hid. by eexists.
Qed.

Lemma searchNodes_root_first_witness :
  trim (js " no.such.key ") ≠ []
  ∧ ∃ others,
      searchNodes (fst (treeToFlow (jsonToTree sample (js "$")) 400 50))
                  (js " no.such.key ")
      = js "$" :: others.
Proof.
  assert (H : trim (js " no.such.key ") ≠ []) by discriminate.
  split; [exact H|]. exact (searchNodes_root_first sample 400 50 _ H).
Defined.

Section Lineage.

Implicit Types (t a d : TreeNode) (forest : list TreeNode).

Lemma allNodes_self t : t ∈ allNodes t.
Proof. rewrite allNodes_unfold. by left. Qed.

(** A node below a node of a tree is a node of the tree. *)
Lemma allNodes_trans d t r : d ∈ allNodes t → t ∈ allNodes r → d ∈ allNodes r.
Proof.
  intros Hd. induction r as [i p l v ty cs IH] using TreeNode_nested_ind.
  rewrite !(allNodes_unfold (mkTreeNode i p l v ty cs)). cbn [children].
  rewrite !elem_of_cons. intros [->|Ht].
  - rewrite allNodes_unfold in Hd. by apply elem_of_cons in Hd.
  - right. rewrite Forall_forall in IH.
    apply list_elem_of_In, in_flat_map in Ht as (c & Hc & Ht).
    apply list_elem_of_In, in_flat_map. exists c. split; [done|].
    apply list_elem_of_In. apply IH; by apply list_elem_of_In.
Qed.

Lemma forest_allNodes_trans d t forest :
  d ∈ allNodes t → t ∈ flat_map allNodes forest → d ∈ flat_map allNodes forest.
Proof.
  intros Hd Ht. apply list_elem_of_In, in_flat_map in Ht as (r & Hr & Ht).
  apply list_elem_of_In, in_flat_map. exists r. split; [done|].
  apply list_elem_of_In. eapply allNodes_trans; [done|by apply list_elem_of_In].
Qed.

(** Every node of the tree that is flattened has its positioned node. *)
Lemma treeToFlow_has_node (root : TreeNode) (rest : list TreeNode)
  (startX startY : Z) t :
  t ∈ allNodes root →
  ∃ node, node ∈ fst (treeToFlow (root :: rest) startX startY)
          ∧ nodeContent node = treeNodeContent t.
Proof.
  intros Ht. unfold treeToFlow.
  set (item := QueueItem.mk root None startX startY).
  pose proof (flowLoop_contents _ [item] {[0%nat := startY]} (Nat.le_refl _))
    as Hnodes.
  cbn [map] in Hnodes. change (QueueItem.treeNode item) with root in Hnodes.
  assert (Hin : t ∈ bfs [root]).
  { rewrite (bfs_levelsFrom (forestSize [root])) by done.
    rewrite (levelsFrom_allNodes _ [root] (Nat.le_refl _)).
    cbn [flat_map]. by rewrite app_nil_r. }
  assert (Hc : treeNodeContent t
               ∈ map nodeContent (fst (flowLoop [item] {[0%nat := startY]} [] []))).
  { rewrite Hnodes. change map with (@fmap list _).
    apply list_elem_of_fmap. by exists t. }
  change map with (@fmap list _) in Hc.
  apply list_elem_of_fmap in Hc as (node & Heq & Hnode). by exists node.
Qed.

End Lineage.

(** X14. On the nodes of a flattened built tree, a query whose pattern is
    the path of a node [t] returns every node above [t], up to the root, and
    [t] itself; and when the pattern is [$] or starts with [$.] it returns
    every node below [t] as well. *)
Theorem searchNodes_lineage (data : json) (startX startY : Z)
  (searchPath : list N) (t : TreeNode) :
  let tree := jsonToTree data (js "$") in
  let result := searchNodes (fst (treeToFlow tree startX startY)) searchPath in
  trim searchPath ≠ [] →
  t ∈ flat_map allNodes tree →
  path t = searchPatternOf searchPath →
  (∀ a, a ∈ flat_map allNodes tree → t ∈ allNodes a → id a ∈ result)
  ∧ (searchPatternOf searchPath = js "$"
     ∨ startsWith (searchPatternOf searchPath) (js "$.") = true →
     ∀ d, d ∈ allNodes t → id d ∈ result).
Proof.
  intros tree result Hq Ht Hpath. subst result tree.
  destruct (jsonToTree_root_node data (js "$")) as (root & Hroot & _).
  pose proof (jsonToTree_descendants data (js "$")) as Hext.
  rewrite Forall_forall in Hext. rewrite Hroot in Ht |- *.
  rewrite Hroot in Hext.
  assert (Hall : ∀ n, n ∈ flat_map allNodes [root] → n ∈ allNodes root).
  { intros n. cbn [flat_map]. by rewrite app_nil_r. }
  assert (Hsel : ∀ n, n ∈ flat_map allNodes [root] →
            (includes (searchPatternOf searchPath) (path n) = true
             ∨ includes (path n)
                 (replace (searchPatternOf searchPath) (js "$.") []) = true) →
            id n ∈ searchNodes (fst (treeToFlow [root] startX startY)) searchPath).
  { intros n Hn Hinc.
    destruct (treeToFlow_has_node root [] startX startY n (Hall n Hn))
      as (node & Hnode & Hcontent).
    injection Hcontent as Hid Hdata. rewrite <- Hid.
    apply searchNodes_elem; [done..|].
    unfold searchSelects, nodePathOf. rewrite Hdata. cbn.
    destruct Hinc as [-> | ->]; by rewrite ?orb_true_r. }
  split.
  - intros a Ha Hta. apply Hsel; [done|]. left.
    destruct (Hext a Ha t Hta) as (s & Hs & _).
    rewrite <- Hpath, Hs. apply includes_prefix.
  - intros Hform d Hd. apply Hsel; [by eapply forest_allNodes_trans|]. right.
    destruct (Hext t Ht d Hd) as (s & Hs & _). rewrite Hs, Hpath.
    destruct Hform as [->|Hstart].
    + change (replace (js "$") (js "$.") []) with (js "$"). apply includes_prefix.
    + change (js "$.") with [36%N; 46%N] in Hstart.
      destruct (searchPatternOf searchPath) as [|c1 [|c2 r]];
        cbn [startsWith] in Hstart; rewrite ?andb_false_r in Hstart; try done.
      apply andb_true_iff in Hstart as [H1 H2].
      apply andb_true_iff in H2 as [H2 _].
      apply N.eqb_eq in H1, H2. subst c1 c2.
      assert (replace (36%N :: 46%N :: r) (js "$.") [] = r) as ->
        by by destruct r.
      apply (includes_app [36%N; 46%N] r s).
Qed.

Lemma searchNodes_lineage_witness :
  let result :=
    searchNodes (fst (treeToFlow (jsonToTree sample (js "$")) 400 50)) (js "b") in
  js "$" ∈ result ∧ js "$.b[1]" ∈ result.
Proof.
  intros result.
  set (tree := jsonToTree sample (js "$")).
  set (nth := λ i, default (mkTreeNode [] [] [] JNull primitive [])
                     (flat_map allNodes tree !! i)).
  assert (Hq : trim (js "b") ≠ []) by discriminate.
  assert (Ha : nth 0%nat ∈ flat_map allNodes tree)
    by by apply (list_elem_of_lookup_2 _ 0%nat).
  assert (Ht : nth 2%nat ∈ flat_map allNodes tree)
    by by apply (list_elem_of_lookup_2 _ 2%nat).
  assert (Hta : nth 2%nat ∈ allNodes (nth 0%nat))
    by by apply (list_elem_of_lookup_2 _ 2%nat).
  assert (Hdt : nth 4%nat ∈ allNodes (nth 2%nat))
    by by apply (list_elem_of_lookup_2 _ 2%nat).
  destruct (searchNodes_lineage sample 400 50 (js "b") (nth 2%nat) Hq Ht eq_refl)
    as [Hup Hdown].
  split.
  - exact (Hup (nth 0%nat) Ha Hta).
  - exact (Hdown (or_intror eq_refl) (nth 4%nat) Hdt).
Defined.

(** ** The path pattern on the paths of the builder *)

Section PatternOnPaths.

Implicit Types (p s key : list N) (st : PatternState).

Lemma patternRun_state st s :
  patternRun st s
  = match patternState st s with
    | Some st' => patternAccepts st'
    | None => false
    end.
Proof.
  revert st. induction s as [|c s IH]; intros st; [done|]. simpl.
  destruct (patternStep st c); [apply IH|done].
Qed.

Lemma patternState_app st s1 s2 :
  patternState st (s1 ++ s2)
  = match patternState st s1 with
    | Some st' => patternState st' s2
    | None => None
    end.
Proof.
  revert st. induction s1 as [|c s1 IH]; intros st; [done|]. simpl.
  destruct (patternStep st c); [apply IH|done].
Qed.

Lemma patternState_digits st s :
  st = AfterBracket ∨ st = InDigits → s ≠ [] →
  Forall (λ c, isDigit c = true) s →
  patternState st s = Some InDigits.
Proof.
  intros Hst Hne Hs. revert st Hst Hne.
  induction Hs as [|c s Hc _ IH]; intros st Hst Hne; [done|].
  assert (patternStep st c = Some InDigits) as Hstep.
  { destruct Hst as [-> | ->]; cbn [patternStep]; by rewrite Hc. }
  cbn [patternState]. rewrite Hstep. destruct s as [|c' s]; [done|].
  apply IH; [by right|done].
Qed.

Lemma isIdentChar_no_segment c :
  isIdentChar c = true → (c =? ch_dot)%N = false ∧ (c =? ch_lbracket)%N = false.
Proof.
  unfold isIdentChar, isIdentStart, isDigit, ch_dot, ch_lbracket. intros H.
  split; apply N.eqb_neq; intros ->; by vm_compute in H.
Qed.

Lemma patternState_identChars s :
  Forall (λ c, isIdentChar c = true) s →
  patternState InIdentifier s = Some InIdentifier.
Proof.
  induction 1 as [|c s Hc _ IH]; [done|].
  cbn [patternState patternStep]. by rewrite Hc.
Qed.

Lemma numberToString_nonempty (n : nat) : numberToString n ≠ [].
Proof.
  unfold numberToString. destruct (Nat.to_uint n) eqn:Hu; try done.
  pose proof (f_equal Nat.of_uint Hu) as Hn. rewrite Unsigned.of_to in Hn.
  simpl in Hn. by subst n.
Qed.

Lemma atSegmentEnd_index p (i : nat) :
  atSegmentEnd p → atSegmentEnd (p ++ js "[" ++ numberToString i ++ js "]").
Proof.
  intros Hp. left. rewrite patternState_app.
  assert (∀ st, st = AtSegmentEnd ∨ st = InIdentifier →
            patternState st (js "[" ++ numberToString i ++ js "]")
            = Some AtSegmentEnd) as Hindex.
  { intros st Hst. change (js "[") with [ch_lbracket].
    cbn [app patternState].
    assert (patternStep st ch_lbracket = Some AfterBracket) as ->
      by (by destruct Hst as [-> | ->]).
    rewrite patternState_app.
    rewrite (patternState_digits AfterBracket);
      [done|by left|apply numberToString_nonempty|].
    apply (string_of_uint_digits (Nat.to_uint i)). }
  destruct Hp as [-> | ->]; apply Hindex; auto.
Qed.

Lemma atSegmentEnd_key p key :
  atSegmentEnd p → identKey key = true → atSegmentEnd (p ++ js "." ++ key).
Proof.
  intros Hp Hkey. right. rewrite patternState_app.
  destruct key as [|c key]; [done|]. simpl in Hkey.
  apply andb_true_iff in Hkey as [Hc Hkey].
  rewrite forallb_forall in Hkey.
  assert (∀ st, st = AtSegmentEnd ∨ st = InIdentifier →
            patternState st (js "." ++ c :: key) = Some InIdentifier) as Hmember.
  { intros st Hst. change (js ".") with [ch_dot]. cbn [app patternState].
    assert (patternStep st ch_dot = Some AfterDot) as ->
      by (by destruct Hst as [-> | ->]).
    cbn [patternStep]. rewrite Hc. apply patternState_identChars.
    apply Forall_forall. intros x Hx. apply Hkey. by apply list_elem_of_In. }
  destruct Hp as [-> | ->]; apply Hmember; auto.
Qed.

Lemma jsonToTree_atSegmentEnd (data : json) :
  identKeys data = true →
  ∀ p, atSegmentEnd p →
       Forall (λ t, atSegmentEnd (path t)) (flat_map allNodes (jsonToTree data p)).
Proof.
  induction data as [| |b|text|str|items IH|entries IH] using json_nested_ind;
    intros Hkeys p Hp.
  1-5: (cbn [jsonToTree flat_map allNodes children app];
        constructor; [exact Hp|constructor]).
  - destruct (jsonToTree_array p items) as [l ->].
    cbn [flat_map allNodes children]. rewrite app_nil_r.
    constructor; [done|]. simpl in Hkeys. rewrite forallb_forall in Hkeys.
    generalize 0%nat. induction IH as [|item items Hitem _ IHitems];
      intros index; cbn [arrayChildren]; [constructor|].
    rewrite flat_map_app. apply Forall_app. split.
    + apply Hitem; [apply Hkeys; by left|by apply atSegmentEnd_index].
    + apply IHitems. intros x Hx. apply Hkeys. by right.
  - destruct (jsonToTree_object p entries) as [l ->].
    cbn [flat_map allNodes children]. rewrite app_nil_r.
    constructor; [done|]. simpl in Hkeys. rewrite forallb_forall in Hkeys.
    induction IH as [|[key v] entries Hentry _ IHentries];
      cbn [objectChildren]; [constructor|].
    rewrite flat_map_app.
    pose proof (Hkeys (key, v) (or_introl eq_refl)) as Hkv.
    apply andb_true_iff in Hkv as [Hk Hv].
    apply Forall_app. split.
    + apply Hentry; [done|by apply atSegmentEnd_key].
    + apply IHentries. intros x Hx. apply Hkeys. by right.
Qed.

End PatternOnPaths.

(** X15. When every key of a value is an identifier, the path pattern of the
    validity check accepts the path of every node built from it: the paths
    the builder makes are paths of the documented form. *)
Theorem pathPattern_accepts_built_paths (data : json) :
  identKeys data = true →
  Forall (λ t, pathPattern_test (path t) = true)
         (flat_map allNodes (jsonToTree data (js "$"))).
Proof.
  intros Hkeys.
  eapply Forall_impl;
    [apply (jsonToTree_atSegmentEnd data Hkeys (js "$")); by left|].
  intros t Ht. unfold pathPattern_test. rewrite patternRun_state.
  by destruct Ht as [-> | ->].
Qed.

Lemma pathPattern_accepts_built_paths_witness :
  identKeys sample = true
  ∧ Forall (λ t, pathPattern_test (path t) = true)
           (flat_map allNodes (jsonToTree sample (js "$"))).
Proof.
  assert (H : identKeys sample = true) by reflexivity.
  split; [exact H|]. exact (pathPattern_accepts_built_paths sample H).
Defined.

(** A key that is not an identifier gives a path the pattern rejects. *)
Example pathPattern_rejects_spaced_key :
  map (λ t, pathPattern_test (path t))
      (flat_map allNodes (jsonToTree (JObject [(js "first name", JNull)]) (js "$")))
  = [true; false].
Proof. vm_compute. reflexivity. Qed.

(** ** The node component *)

Section Component.

Implicit Types (s : list N) (t : TreeNode).

Lemma jsonToTree_kind_of_value (data : json) (p : list N) :
  Forall (λ t, type t = kindOf (value t) ∧ value t ≠ JUndefined)
         (flat_map allNodes (jsonToTree data p)).
Proof.
  apply jsonToTree_Forall. clear. intros data p root Hroot.
  destruct (jsonToTree_root_node data p) as (root' & Heq & _ & _ & Hv & Hty).
  rewrite Heq in Hroot. injection Hroot as ->. rewrite Hv, Hty.
  by destruct data.
Qed.

Lemma root_in_forest (root : TreeNode) d : d ∈ flat_map allNodes [root] ↔ d ∈ allNodes root.
Proof. cbn [flat_map]. by rewrite app_nil_r. Qed.

(** Every positioned node is the node of a node of the tree. *)
Lemma treeToFlow_from_tree (root : TreeNode) (rest : list TreeNode)
  (startX startY : Z) (node : Node.t) :
  node ∈ fst (treeToFlow (root :: rest) startX startY) →
  ∃ t, t ∈ allNodes root ∧ nodeContent node = treeNodeContent t.
Proof.
  intros Hnode. unfold treeToFlow in Hnode.
  set (item := QueueItem.mk root None startX startY) in Hnode.
  pose proof (flowLoop_contents _ [item] {[0%nat := startY]} (Nat.le_refl _))
    as Hnodes.
  cbn [map] in Hnodes. change (QueueItem.treeNode item) with root in Hnodes.
  assert (Hc : nodeContent node ∈ map treeNodeContent (bfs [root])).
  { rewrite <- Hnodes. change map with (@fmap list _).
    apply list_elem_of_fmap. by exists node. }
  change map with (@fmap list _) in Hc.
  apply list_elem_of_fmap in Hc as (t & Heq & Ht). exists t. split; [|done].
  rewrite (bfs_levelsFrom (forestSize [root])) in Ht by done.
  rewrite (levelsFrom_allNodes _ [root] (Nat.le_refl _)) in Ht.
  by apply root_in_forest.
Qed.

End Component.

(** X16. The preview of a string value is the trimmed string between double
    quotes: the whole of it when it has at most 50 code units, and its first
    50 code units followed by three dots, 53 code units in all, when it has
    more. With the quotes the preview is never longer than 55 code units. *)
Theorem getValuePreview_string (s : list N) :
  (length (getValuePreview (JString s)) ≤ 55)%nat
  ∧ ∃ body,
      getValuePreview (JString s) = [ch_quote] ++ body ++ [ch_quote]
      ∧ take 50 body = take 50 (trim s)
      ∧ (body = trim s ∨ body = take 50 (trim s) ++ js "...")
      ∧ ((length (trim s) ≤ 50)%nat → body = trim s)
      ∧ ((50 < length (trim s))%nat →
           body = take 50 (trim s) ++ js "..." ∧ length body = 53%nat).
Proof.
  unfold getValuePreview.
  destruct (Nat.ltb_spec 50 (length (trim s))) as [Hlong|Hshort].
  - assert (Hlen : length (take 50 (trim s) ++ js "...") = 53%nat).
    { rewrite length_app, length_take. change (length (js "...")) with 3%nat.
      lia. }
    split.
    + rewrite !length_app, length_take. change (length (js "...")) with 3%nat.
      cbn [length]. lia.
    + eexists. split; [reflexivity|]. split; [|split; [by right|split; [lia|]]].
      * rewrite take_app_le by (rewrite length_take; lia).
        by rewrite take_take, Nat.min_id.
      * intros _. split; [reflexivity|exact Hlen].
  - split.
    + rewrite !length_app. cbn [length]. lia.
    + eexists. split; [reflexivity|]. split; [done|]. split; [by left|].
      split; [done|lia].
Qed.

(** X17. Under the label of a node of a flattened built tree a preview is
    shown exactly when the value at its location is a boolean, a number or a
    string: [String] of the value for the first two, the quoted string for
    the third. The previews [null], [undefined], [[n items]] and [{n keys}]
    are never shown. *)
Theorem previewShown_on_built_tree (data : json) (startX startY : Z) :
  Forall (λ node,
            previewShown (Node.data node)
            = match NodeData.value (Node.data node) with
              | JBool b => Some (String_of (JBool b))
              | JNumber text => Some text
              | JString s => Some (getValuePreview (JString s))
              | _ => None
              end)
         (fst (treeToFlow (jsonToTree data (js "$")) startX startY)).
Proof.
  destruct (jsonToTree_root_node data (js "$")) as (root & Hroot & _).
  pose proof (jsonToTree_kind_of_value data (js "$")) as Hkind.
  rewrite Hroot in Hkind |- *. rewrite Forall_forall in Hkind.
  apply Forall_forall. intros node Hnode.
  destruct (treeToFlow_from_tree root [] startX startY node Hnode)
    as (t & Ht & Hcontent).
  apply root_in_forest in Ht. destruct (Hkind t Ht) as [Hty Hv].
  injection Hcontent as _ ->. unfold previewShown. cbn. rewrite Hty.
  by destruct (value t).
Qed.

(** ** The handlers of the application *)

(** Reading a field of a state that is written out. *)
Ltac state_fields :=
  cbn [AppState.jsonInput AppState.jsonError AppState.nodes AppState.edges
       AppState.searchPath AppState.highlightedNodes AppState.isDarkMode
       AppState.clickedNode AppState.searchMessage].

Section Handlers.

Implicit Types (st : AppState.t) (q pat : list N) (node : AppNode.t).

Lemma setHighlighted_plain (f : AppNode.t → bool) (l : list AppNode.t) :
  map AppNode.node (setHighlighted f l) = map AppNode.node l.
Proof. unfold setHighlighted. rewrite map_map. by apply map_ext. Qed.


Lemma handleSearch_plainNodes st : plainNodes (handleSearch st) = plainNodes st.
Proof.
  unfold handleSearch, plainNodes.
  destruct (negb _); [apply setHighlighted_plain|].
  destruct (_ <? _)%nat; apply setHighlighted_plain.
Qed.

Lemma handleSearch_outcome st :
  handleSearch st
  = let '(highlighted, message, flag) :=
      searchOutcome (plainNodes st) (AppState.searchPath st) in
    afterSearch st highlighted message (setHighlighted flag (AppState.nodes st)).
Proof.
  unfold handleSearch, searchOutcome, plainNodes.
  destruct (negb _); [done|]. by destruct (_ <? _)%nat.
Qed.




Lemma handleSearch_nodes st :
  AppState.nodes (handleSearch st)
  = setHighlighted (snd (searchOutcome (plainNodes st) (AppState.searchPath st)))
                   (AppState.nodes st).
Proof.
  rewrite handleSearch_outcome. by destruct (searchOutcome _ _) as [[h m] f].
Qed.

Lemma searchSelects_same_path pat (n n' : Node.t) :
  nodePathOf n = nodePathOf n' → searchSelects pat n = searchSelects pat n'.
Proof. unfold searchSelects. by intros ->. Qed.

(** Among nodes whose path is their id, the ids returned are those of the
    selected nodes and of no other node. *)
Lemma elem_of_searchNodes (nodes : list Node.t) q (n : Node.t) :
  trim q ≠ [] → Forall pathIsId nodes → n ∈ nodes →
  bool_decide (Node.id n ∈ searchNodes nodes q)
  = searchSelects (searchPatternOf q) n.
Proof.
  intros Hq Hids Hn. rewrite Forall_forall in Hids.
  destruct (searchSelects (searchPatternOf q) n) eqn:Hsel.
  - apply bool_decide_eq_true. by apply searchNodes_elem.
  - apply bool_decide_eq_false. intros Hin.
    rewrite searchNodes_filter in Hin.
    destruct (truthy (trim q)); [|by apply elem_of_nil in Hin].
    change map with (@fmap list _) in Hin.
    apply list_elem_of_fmap in Hin as (n' & Hid & Hn').
    apply list_elem_of_In, filter_In in Hn' as [Hn' Hsel'].
    apply list_elem_of_In in Hn'.
    rewrite (searchSelects_same_path _ n n') in Hsel; [congruence|].
    unfold nodePathOf. pose proof (Hids n Hn) as H1.
    pose proof (Hids n' Hn') as H2. unfold pathIsId in H1, H2.
    by rewrite H1, H2, Hid.
Qed.

Lemma replace_dollar_dot (r : list N) : replace (js "$." ++ r) (js "$.") [] = r.
Proof. by destruct r. Qed.

(** A query that is the path of a node, as a click leaves it in the search
    box, selects the node. *)
Lemma searchSelects_own_path (n : Node.t) :
  trim (nodePathOf n) = nodePathOf n →
  searchSelects (searchPatternOf (nodePathOf n)) n = true.
Proof.
  intros Htrim. unfold searchSelects, searchPatternOf. rewrite Htrim.
  destruct (startsWith (nodePathOf n) (js "$")).
  - by rewrite bool_decide_eq_true_2.
  - by rewrite replace_dollar_dot, includes_refl, orb_true_r.
Qed.

Lemma treeToFlow_pathIsId (data : json) (startX startY : Z) :
  Forall pathIsId (fst (treeToFlow (jsonToTree data (js "$")) startX startY)).
Proof.
  destruct (jsonToTree_root_node data (js "$")) as (root & Hroot & _).
  pose proof (jsonToTree_id_path data (js "$")) as Hid.
  rewrite Hroot in Hid |- *. rewrite Forall_forall in Hid.
  apply Forall_forall. intros node Hnode.
  destruct (treeToFlow_from_tree root [] startX startY node Hnode)
    as (t & Ht & Hcontent).
  apply root_in_forest in Ht. injection Hcontent as Hn Hd.
  unfold pathIsId. rewrite Hd, Hn. cbn. by rewrite (Hid t Ht).
Qed.

Lemma treeToFlow_counts (root : TreeNode) (rest : list TreeNode) (startX startY : Z) :
  fst (treeToFlow (root :: rest) startX startY) ≠ []
  ∧ (length (snd (treeToFlow (root :: rest) startX startY)) + 1
     = length (fst (treeToFlow (root :: rest) startX startY)))%nat.
Proof.
  unfold treeToFlow.
  set (item := QueueItem.mk root None startX startY).
  destruct (flowLoop_trace _ [item] {[0%nat := startY]} [] [] (Nat.le_refl _))
    as (_ & Hn & He).
  cbn [length flat_map edgeOf QueueItem.parentNode item app] in Hn, He.
  split; [|lia].
  intros Hnil. rewrite Hnil in Hn. unfold queueSize in Hn.
  cbn [map length] in Hn. rewrite forestSize_cons in Hn. lia.
Qed.

End Handlers.


Lemma handleSearch_selected_flags (st : AppState.t) :
  Forall pathIsId (plainNodes st) →
  trim (AppState.searchPath st) ≠ [] →
  let st' := handleSearch st in
  map AppNode.isHighlighted (AppState.nodes st')
  = map (λ n, Some (searchSelects (searchPatternOf (AppState.searchPath st)) n))
        (plainNodes st)
  ∧ highlightedCount st'
    = length (searchNodes (plainNodes st) (AppState.searchPath st))
  ∧ AppState.searchMessage st'
    = if decide (highlightedCount st' = 0%nat) then js "No match found"
      else numberToString (highlightedCount st') ++ js " match(es) found".
Proof.
  intros Hids Hq st'.
  set (q := AppState.searchPath st) in *.
  set (ids := searchNodes (plainNodes st) q).
  assert (Hflag : ∀ n, n ∈ AppState.nodes st →
            bool_decide (Node.id (AppNode.node n) ∈ ids)
            = searchSelects (searchPatternOf q) (AppNode.node n)).
  { intros n Hn. apply elem_of_searchNodes; [done..|].
    unfold plainNodes. change map with (@fmap list _).
    apply list_elem_of_fmap. by exists n. }
  assert (Hnone : ids = [] → ∀ n, n ∈ AppState.nodes st →
            searchSelects (searchPatternOf q) (AppNode.node n) = false).
  { intros Hnil n Hn. rewrite <- (Hflag n Hn), Hnil.
    apply bool_decide_eq_false. apply not_elem_of_nil. }
  assert (Hnodes : map AppNode.isHighlighted (AppState.nodes st')
            = map (λ n, Some (searchSelects (searchPatternOf q) n)) (plainNodes st)).
  { subst st'. rewrite handleSearch_nodes. unfold setHighlighted, plainNodes.
    rewrite !map_map. apply map_ext_in. intros n Hn.
    apply list_elem_of_In in Hn. cbn. f_equal.
    unfold searchOutcome. fold q. fold (plainNodes st). fold ids.
    destruct (trim q) as [|c0 r0] eqn:Ht; [done|]. cbn [truthy negb].
    destruct (Nat.ltb_spec 0 (length ids)) as [Hpos|Hzero]; cbn [snd].
    - by apply Hflag.
    - symmetry. apply Hnone; [|done]. destruct ids; [done|simpl in Hzero; lia]. }
  assert (Hcount : highlightedCount st' = length ids).
  { unfold highlightedCount.
    transitivity (length (List.filter (λ o : option bool, default false o)
                            (map AppNode.isHighlighted (AppState.nodes st')))).
    { generalize (AppState.nodes st'). intros l.
      induction l as [|n l IH]; [done|]. cbn.
      destruct (default false (AppNode.isHighlighted n)); cbn; by rewrite IH. }
    rewrite Hnodes. subst ids. rewrite searchNodes_filter.
    destruct (trim q) as [|c0 r0] eqn:Ht; [done|]. cbn [truthy]. rewrite length_map.
    generalize (plainNodes st). intros l.
    induction l as [|n l IH]; [done|]. cbn.
    destruct (searchSelects _ n); cbn; by rewrite IH. }
  split; [exact Hnodes|]. split; [exact Hcount|].
  rewrite Hcount. subst st'. unfold handleSearch. fold q.
  fold (plainNodes st). fold ids.
  destruct (trim q) as [|c0 r0] eqn:Ht; [done|]. cbn [truthy negb].
  destruct (Nat.ltb_spec 0 (length ids)) as [Hpos|Hzero]; cbn;
    case_decide; try lia; done.
Qed.

(** X19. When the path of every node is its id, as the flattener makes them,
    a search on a query that is not blank highlights the nodes the matcher
    selects and no other, and the message counts them: as many nodes are
    highlighted as the message says, or none with [No match found]. *)
Theorem handleSearch_highlights_selected (st : AppState.t) :
  Forall pathIsId (plainNodes st) →
  trim (AppState.searchPath st) ≠ [] →
  let st' := handleSearch st in
  map AppNode.isHighlighted (AppState.nodes st')
  = map (λ n, Some (searchSelects (searchPatternOf (AppState.searchPath st)) n))
        (plainNodes st)
  ∧ highlightedCount st'
    = length (searchNodes (plainNodes st) (AppState.searchPath st))
  ∧ AppState.searchMessage st'
    = if decide (highlightedCount st' = 0%nat) then js "No match found"
      else numberToString (highlightedCount st') ++ js " match(es) found".
Proof. apply handleSearch_selected_flags. Qed.

Lemma handleSearch_highlights_selected_witness :
  let st := handleVisualize parseAsSample (stateWith (js "{}") (js "b")) in
  Forall pathIsId (plainNodes st)
  ∧ trim (AppState.searchPath st) ≠ []
  ∧ highlightedCount (handleSearch st)
    = length (searchNodes (plainNodes st) (AppState.searchPath st)).
Proof.
  intros st.
  assert (Hids : Forall pathIsId (plainNodes st))
    by (vm_compute; repeat constructor).
  assert (Hq : trim (AppState.searchPath st) ≠ []) by discriminate.
  split; [exact Hids|]. split; [exact Hq|].
  exact (proj1 (proj2 (handleSearch_highlights_selected st Hids Hq))).
Defined.

(** X20. [handleVisualize] clears the message and the highlighted ids and
    leaves both text boxes and the clicked node. It shows nodes exactly when
    the input is not blank and [JSON.parse] returns a value; then there is no
    error, the nodes and edges are those of the flattened tree of the value
    at the origin (400, 50), no node carries a flag, and there is one edge
    less than nodes: the error [Unable to parse JSON structure] is never set
    by the handler itself. On a blank input the error is
    [Please enter JSON data], whatever [JSON.parse] would say, and on a
    parse error it is the message of the error. *)
Theorem handleVisualize_outcome (JSON_parse : list N → list N + json)
  (st : AppState.t) :
  let input := AppState.jsonInput st in
  let st' := handleVisualize JSON_parse st in
  (AppState.searchMessage st' = [] ∧ AppState.highlightedNodes st' = ∅
   ∧ AppState.jsonInput st' = input
   ∧ AppState.searchPath st' = AppState.searchPath st
   ∧ AppState.clickedNode st' = AppState.clickedNode st)
  ∧ (AppState.nodes st' ≠ []
     ↔ trim input ≠ [] ∧ ∃ data, JSON_parse input = inr data)
  ∧ match trim input, JSON_parse input with
    | [], _ =>
        AppState.jsonError st' = js "Please enter JSON data"
        ∧ AppState.nodes st' = [] ∧ AppState.edges st' = []
    | _ :: _, inl message =>
        AppState.jsonError st' = message
        ∧ AppState.nodes st' = [] ∧ AppState.edges st' = []
    | _ :: _, inr data =>
        AppState.jsonError st' = []
        ∧ plainNodes st' = fst (treeToFlow (jsonToTree data (js "$")) 400 50)
        ∧ AppState.edges st' = snd (treeToFlow (jsonToTree data (js "$")) 400 50)
        ∧ Forall (λ node, AppNode.isHighlighted node = None) (AppState.nodes st')
        ∧ (length (AppState.edges st') + 1 = length (AppState.nodes st'))%nat
    end.
Proof.
  intros input st'. subst st' input. unfold handleVisualize.
  destruct (trim (AppState.jsonInput st)) as [|c r] eqn:Ht; cbn [truthy negb].
  { split; [done|]. split; [|done]. split; [done|]. by intros [? _]. }
  destruct (JSON_parse (AppState.jsonInput st)) as [message|data] eqn:Hparse.
  { split; [done|]. split; [|done]. split; [done|]. by intros [_ [? ?]]. }
  destruct (jsonToTree_root_node data (js "$")) as (root & Hroot & _).
  rewrite Hroot. cbn [length Nat.eqb].
  destruct (treeToFlow_counts root [] 400 50) as [Hne Hcount].
  unfold afterVisualize, plainNodes. state_fields.
  split; [done|]. split.
  - split; [by eauto|]. intros Hnil.
    by destruct (fst (treeToFlow [root] 400 50)).
  - split; [done|]. split.
    { rewrite map_map. cbn. by rewrite map_id. }
    split; [done|]. split.
    + apply Forall_forall. intros n Hn. change map with (@fmap list _) in Hn.
      by apply list_elem_of_fmap in Hn as (n' & -> & _).
    + by rewrite length_map.
Qed.

(** X21. After a tree has been generated, a search on a query that is not
    blank always finds a match: the root is highlighted, the message counts
    the highlighted nodes, one at least, and [No match found] is never
    shown. *)
Theorem search_after_visualize (JSON_parse : list N → list N + json)
  (st : AppState.t) :
  let shown := handleVisualize JSON_parse st in
  let found := handleSearch shown in
  AppState.nodes shown ≠ [] →
  trim (AppState.searchPath st) ≠ [] →
  (∃ root others,
     AppState.nodes found = root :: others
     ∧ Node.id (AppNode.node root) = js "$"
     ∧ AppNode.isHighlighted root = Some true)
  ∧ (1 ≤ highlightedCount found)%nat
  ∧ AppState.searchMessage found
    = numberToString (highlightedCount found) ++ js " match(es) found".
Proof.
  intros shown found Hshown Hq.
  assert (Hpath : AppState.searchPath shown = AppState.searchPath st).
  { subst shown. unfold handleVisualize.
    destruct (negb _); [done|]. destruct (JSON_parse _); [done|].
    by destruct (_ =? _)%nat. }
  assert (∃ data, plainNodes shown
                  = fst (treeToFlow (jsonToTree data (js "$")) 400 50))
    as [data Hnodes].
  { subst shown. unfold handleVisualize in *.
    destruct (negb _); [done|]. destruct (JSON_parse _) as [|data]; [done|].
    exists data. destruct (jsonToTree_root_node data (js "$")) as (root & -> & _).
    cbn [length Nat.eqb]. unfold plainNodes, afterVisualize. state_fields.
    rewrite map_map. cbn. by rewrite map_id. }
  assert (Hids : Forall pathIsId (plainNodes shown)).
  { rewrite Hnodes. apply treeToFlow_pathIsId. }
  rewrite <- Hpath in Hq.
  destruct (handleSearch_selected_flags shown Hids Hq) as (Hflags & Hcount & Hmsg).
  fold found in Hflags, Hcount, Hmsg.
  destruct (searchNodes_root_head data 400 50 _ Hq) as (first & rest & Hfirst & Hid & Hsel).
  rewrite <- Hnodes in Hfirst.
  assert (Hpos : (1 ≤ highlightedCount found)%nat).
  { rewrite Hcount, searchNodes_filter.
    destruct (trim (AppState.searchPath shown)); [done|]. cbn [truthy].
    rewrite Hfirst. cbn [List.filter]. rewrite Hsel. cbn. lia. }
  split; [|split; [exact Hpos|]].
  - rewrite Hfirst in Hflags. cbn [map] in Hflags.
    destruct (AppState.nodes found) as [|root others] eqn:Hfound; [done|].
    exists root, others. cbn [map] in Hflags. injection Hflags as Hroot _.
    split; [done|]. split; [|by rewrite Hroot, Hsel].
    pose proof (handleSearch_plainNodes shown) as Hplain. fold found in Hplain.
    unfold plainNodes at 1 in Hplain. rewrite Hfound, Hfirst in Hplain.
    cbn [map] in Hplain. injection Hplain as -> _. exact Hid.
  - rewrite Hmsg. case_decide; [lia|done].
Qed.

Lemma search_after_visualize_witness :
  let shown := handleVisualize parseAsSample (stateWith (js "{}") (js "zzz")) in
  let found := handleSearch shown in
  AppState.nodes shown ≠ []
  ∧ trim (js "zzz") ≠ []
  ∧ (1 ≤ highlightedCount found)%nat
  ∧ AppState.searchMessage found
    = numberToString (highlightedCount found) ++ js " match(es) found".
Proof.
  intros shown found.
  assert (Hshown : AppState.nodes shown ≠ []) by discriminate.
  assert (Hq : trim (js "zzz") ≠ []) by discriminate.
  split; [exact Hshown|]. split; [exact Hq|].
  exact (proj2 (search_after_visualize parseAsSample
                  (stateWith (js "{}") (js "zzz")) Hshown Hq)).
Defined.

(** X22. A click on a node whose value [String] can print shows the path
    and the printed value, [N/A] for [null], puts the path in the search box
    when the path is not empty and leaves the search box as it is when the
    path is empty, and changes nothing else: the nodes are the same. When
    the clicked node is one of the nodes, and its path is not empty and has
    no white space at either end, the search that follows highlights it. *)
Theorem search_after_click (st : AppState.t) (node : AppNode.t) (value : list N) :
  let path := nodePathOf (AppNode.node node) in
  let clicked := handleNodeClick st node in
  let found := handleSearch clicked in
  clickedValue (Node.data (AppNode.node node)) = Some value →
  AppState.clickedNode clicked = Some (path, value)
  ∧ (path ≠ [] → AppState.searchPath clicked = path)
  ∧ (path = [] → AppState.searchPath clicked = AppState.searchPath st)
  ∧ AppState.nodes clicked = AppState.nodes st
  ∧ AppState.edges clicked = AppState.edges st
  ∧ AppState.jsonInput clicked = AppState.jsonInput st
  ∧ AppState.jsonError clicked = AppState.jsonError st
  ∧ AppState.highlightedNodes clicked = AppState.highlightedNodes st
  ∧ AppState.searchMessage clicked = AppState.searchMessage st
  ∧ AppState.isDarkMode clicked = AppState.isDarkMode st
  ∧ (node ∈ AppState.nodes st → path ≠ [] → trim path = path →
     {| AppNode.node := AppNode.node node; AppNode.isHighlighted := Some true |}
     ∈ AppState.nodes found).
Proof.
  intros path clicked found Hvalue.
  assert (Hclicked : clicked
    = {| AppState.jsonInput := AppState.jsonInput st;
         AppState.jsonError := AppState.jsonError st;
         AppState.nodes := AppState.nodes st;
         AppState.edges := AppState.edges st;
         AppState.searchPath :=
           if truthy path then path else AppState.searchPath st;
         AppState.highlightedNodes := AppState.highlightedNodes st;
         AppState.isDarkMode := AppState.isDarkMode st;
         AppState.clickedNode := Some (path, value);
         AppState.searchMessage := AppState.searchMessage st |}).
  { subst clicked. unfold handleNodeClick. by rewrite Hvalue. }
  split; [by rewrite Hclicked|].
  split; [intros Hpath; rewrite Hclicked; by destruct path|].
  split; [intros Hpath; rewrite Hclicked; cbn; by rewrite Hpath|].
  do 7 (split; [by rewrite Hclicked|]).
  intros Hnode Hpath Htrim.
  subst found. rewrite handleSearch_nodes. rewrite Hclicked.
  unfold plainNodes. state_fields.
  unfold setHighlighted. change map with (@fmap list _).
  apply list_elem_of_fmap. exists node. split; [|done]. f_equal. f_equal.
  symmetry. unfold searchOutcome.
  destruct path as [|c r] eqn:Hp; [done|]. cbn [truthy]. rewrite <- Hp in *.
  rewrite Htrim. rewrite Hp at 1. cbn [truthy negb].
  assert (Hin : Node.id (AppNode.node node)
                ∈ searchNodes (AppNode.node <$> AppState.nodes st) path).
  { apply searchNodes_elem.
    - by rewrite Htrim, Hp.
    - apply list_elem_of_fmap. by exists node.
    - by apply searchSelects_own_path. }
  destruct (Nat.ltb_spec 0 (length (searchNodes (AppNode.node <$> AppState.nodes st) path)))
    as [Hpos|Hzero]; cbn [snd].
  - by apply bool_decide_eq_true.
  - destruct (searchNodes _ path); [by apply elem_of_nil in Hin|].
    simpl in Hzero. lia.
Qed.

Lemma search_after_click_witness :
  let st := handleVisualize parseAsSample (stateWith (js "{}") []) in
  ∃ node,
    node ∈ AppState.nodes st
    ∧ Node.id (AppNode.node node) = js "$.b[1]"
    ∧ AppState.clickedNode (handleNodeClick st node) = Some (js "$.b[1]", js "3")
    ∧ AppState.searchPath (handleNodeClick st node) = js "$.b[1]"
    ∧ {| AppNode.node := AppNode.node node; AppNode.isHighlighted := Some true |}
      ∈ AppState.nodes (handleSearch (handleNodeClick st node)).
Proof.
  intros st.
  set (dummy := AppNode.mk (Node.mk [] (Position.mk 0 0)
                              (NodeData.mk [] None JNull primitive)) None).
  set (node := default dummy (AppState.nodes st !! 4%nat)).
  assert (Hnode : node ∈ AppState.nodes st)
    by by apply (list_elem_of_lookup_2 _ 4%nat).
  assert (Hvalue : clickedValue (Node.data (AppNode.node node)) = Some (js "3"))
    by reflexivity.
  assert (Hpath : nodePathOf (AppNode.node node) ≠ []) by discriminate.
  assert (Htrim : trim (nodePathOf (AppNode.node node))
                  = nodePathOf (AppNode.node node)) by reflexivity.
  destruct (search_after_click st node (js "3") Hvalue)
    as (Hclicked & Hbox & _ & _ & _ & _ & _ & _ & _ & _ & Hfound).
  exists node. split; [exact Hnode|]. split; [reflexivity|].
  split; [exact Hclicked|]. split; [exact (Hbox Hpath)|].
  exact (Hfound Hnode Hpath Htrim).
Defined.


(** X23. The red border and the glow of a highlighted node are those of no
    node that is not highlighted, whatever the kinds of the two nodes, and
    highlighting leaves the background colour of the kind. *)
Theorem nodeStyles_highlight_visible (type1 type2 : JsonNodeType)
  (flag : option bool) :
  default false flag = false →
  NodeStyles.border (nodeStyles type1 (Some true))
  ≠ NodeStyles.border (nodeStyles type2 flag)
  ∧ NodeStyles.boxShadow (nodeStyles type1 (Some true))
    ≠ NodeStyles.boxShadow (nodeStyles type2 flag)
  ∧ NodeStyles.backgroundColor (nodeStyles type1 (Some true))
    = NodeStyles.backgroundColor (nodeStyles type1 flag)
  ∧ NodeStyles.backgroundColor (nodeStyles type1 flag) = getNodeColor type1.
Proof.
  intros Hflag. unfold nodeStyles. rewrite Hflag. cbn [default].
  by destruct type1, type2.
Qed.

Lemma nodeStyles_highlight_visible_witness :
  default false None = false
  ∧ NodeStyles.border (nodeStyles object (Some true))
    ≠ NodeStyles.border (nodeStyles array None).
Proof.
  assert (H : default false (@None bool) = false) by reflexivity.
  split; [exact H|]. exact (proj1 (nodeStyles_highlight_visible object array None H)).
Defined.

(** The conditions of X14 and X22 are needed. In [[{"x$":{"y ":{"z":1}}}]]
    the node [$[0].x$.y ] has a path that ends in a space: a click on it and
    a search do not highlight it, and do not return the node below it,
    because the pattern [$[0].x$.y] holds a [$.] that the matcher removes. *)
Example search_after_click_trailing_space :
  let st := handleVisualize (λ _, inr dollarKeys) (stateWith (js "{}") []) in
  let nodes := AppState.nodes (handleSearch (handleNodeClick st
                 (default (AppNode.mk (Node.mk [] (Position.mk 0 0)
                                         (NodeData.mk [] None JNull primitive)) None)
                          (AppState.nodes st !! 3%nat)))) in
  map (λ node, (Node.id (AppNode.node node), AppNode.isHighlighted node)) nodes
  = [ (js "$", Some true); (js "$[0]", Some true); (js "$[0].x$", Some true);
      (js "$[0].x$.y ", Some false); (js "$[0].x$.y .z", Some false) ].
Proof. vm_compute. reflexivity. Qed.

Section Printing.

Lemma ToString_array (items : list json) :
  Forall (λ item, is_Some (ToString item)) items →
  is_Some (ToString (JArray items)).
Proof.
  intros H. cbn [ToString].
  induction H as [|item items Hitem _ IH]; [by eexists|].
  assert (is_Some (match item with
                   | JNull | JUndefined => Some []
                   | _ => ToString item
                   end)) as [text ->].
  { by destruct item; try (by eexists). }
  destruct items as [|item' items]; [by eexists|].
  destruct IH as [tail ->]. by eexists.
Qed.

Lemma ToString_printable (data : json) :
  noToStringKey data = true → is_Some (ToString data).
Proof.
  induction data as [| |b|text|str|items IH|entries IH] using json_nested_ind;
    intros Hkeys; try (by eexists).
  - apply ToString_array. simpl in Hkeys. rewrite forallb_forall in Hkeys.
    rewrite Forall_forall in IH |- *. intros item Hitem.
    apply IH; [done|]. apply Hkeys. by apply list_elem_of_In.
  - cbn [ToString]. simpl in Hkeys. apply andb_true_iff in Hkeys as [Hk _].
    apply negb_true_iff in Hk. rewrite Hk. by eexists.
Qed.

End Printing.

(** X24. A click on a node never fails when no object of the node's value
    has a key [toString]: a value is then printed and shown with the path
    of the node. *)
Theorem handleNodeClick_prints (st : AppState.t) (node : AppNode.t) :
  noToStringKey (NodeData.value (Node.data (AppNode.node node))) = true →
  ∃ value,
    clickedValue (Node.data (AppNode.node node)) = Some value
    ∧ AppState.clickedNode (handleNodeClick st node)
      = Some (nodePathOf (AppNode.node node), value).
Proof.
  intros Hkeys. destruct (ToString_printable _ Hkeys) as [text Htext].
  assert (is_Some (clickedValue (Node.data (AppNode.node node)))) as [value Hv].
  { unfold clickedValue.
    destruct (NodeData.value _); try (by eexists); by rewrite Htext. }
  exists value. split; [done|]. unfold handleNodeClick. by rewrite Hv.
Qed.

Lemma handleNodeClick_prints_witness :
  let st := handleVisualize parseAsSample (stateWith (js "{}") []) in
  let node := default (AppNode.mk (Node.mk [] (Position.mk 0 0)
                                     (NodeData.mk [] None JNull primitive)) None)
                      (AppState.nodes st !! 2%nat) in
  noToStringKey (NodeData.value (Node.data (AppNode.node node))) = true
  ∧ ∃ value,
      clickedValue (Node.data (AppNode.node node)) = Some value
      ∧ AppState.clickedNode (handleNodeClick st node)
        = Some (nodePathOf (AppNode.node node), value).
Proof.
  intros st node.
  assert (H : noToStringKey (NodeData.value (Node.data (AppNode.node node))) = true)
    by reflexivity.
  split; [exact H|]. exact (handleNodeClick_prints st node H).
Defined.

Example handleNodeClick_array_value :
  let st := handleVisualize parseAsSample (stateWith (js "{}") []) in
  AppState.clickedNode
    (handleNodeClick st
       (default (AppNode.mk (Node.mk [] (Position.mk 0 0)
                               (NodeData.mk [] None JNull primitive)) None)
                (AppState.nodes st !! 2%nat)))
  = Some (js "$.b", js "2,3").
Proof. vm_compute. reflexivity. Qed.

(** With a key [toString], [String] throws on the object and the click on
    its node sets nothing. *)
Example handleNodeClick_throws :
  let st := handleVisualize (λ _, inr (JObject [(js "toString", JNumber (js "1"))]))
              (stateWith (js "{}") []) in
  map (λ node, AppState.clickedNode (handleNodeClick st node)) (AppState.nodes st)
  = [None; Some (js "$.toString", js "1")].
Proof. vm_compute. reflexivity. Qed.
